(** * Deep River Audio Tour: proximity engine and playback activation

    A shallow embedding of the walking-tour page component
    ([src/app/page.tsx], both drafts, and the earlier draft without the
    AR view) and the properties of its proximity/trigger state machine.

    Numbers.  A JavaScript [number] is modelled as an extended real: a
    finite value carries a real, and the three non-finite values
    [NaN], [Infinity] and [-Infinity] are kept with their IEEE-754
    propagation rules.  Arithmetic on finite values is exact (no
    rounding, no overflow, one zero); this is the only idealisation.
    Where rounding decides the outcome, [getDistance] is also given
    in IEEE-754 binary64 arithmetic (module [Double]), with the
    engine's [Math.sin], [Math.cos] and [Math.atan2] as parameters. *)

From Stdlib Require Import Floats.
From Stdlib Require Import Reals Lra Lia ZArith List String Ascii Bool.
From Stdlib Require Import Decimal DecimalString.
Import ListNotations.

(* ================================================================= *)
(** ** JavaScript numbers *)

Module JS.

Inductive number : Type :=
| NaN
| NegInfinity
| Fin (r : R)
| Infinity.

Declare Scope js_scope.
Delimit Scope js_scope with js.
Bind Scope js_scope with number.

Local Open Scope R_scope.

(** Sign of a finite factor applied to an infinity: [Infinity * 0] is
    [NaN]. *)
Definition scale_inf (pos : bool) (a : R) : number :=
  if Rlt_dec 0 a then (if pos then Infinity else NegInfinity)
  else if Rlt_dec a 0 then (if pos then NegInfinity else Infinity)
  else NaN.

Definition add (x y : number) : number :=
  match x, y with
  | NaN, _ | _, NaN => NaN
  | Fin a, Fin b => Fin (a + b)
  | Infinity, NegInfinity | NegInfinity, Infinity => NaN
  | Infinity, _ | _, Infinity => Infinity
  | NegInfinity, _ | _, NegInfinity => NegInfinity
  end.

Definition sub (x y : number) : number :=
  match x, y with
  | NaN, _ | _, NaN => NaN
  | Fin a, Fin b => Fin (a - b)
  | Infinity, Infinity | NegInfinity, NegInfinity => NaN
  | Infinity, _ | _, NegInfinity => Infinity
  | NegInfinity, _ | _, Infinity => NegInfinity
  end.

Definition mul (x y : number) : number :=
  match x, y with
  | NaN, _ | _, NaN => NaN
  | Fin a, Fin b => Fin (a * b)
  | Fin a, Infinity | Infinity, Fin a => scale_inf true a
  | Fin a, NegInfinity | NegInfinity, Fin a => scale_inf false a
  | Infinity, Infinity | NegInfinity, NegInfinity => Infinity
  | Infinity, NegInfinity | NegInfinity, Infinity => NegInfinity
  end.

(** Division; the finite zero is the positive zero. *)
Definition div (x y : number) : number :=
  match x, y with
  | NaN, _ | _, NaN => NaN
  | Fin a, Fin b =>
      if Req_dec_T b 0 then scale_inf true a else Fin (a / b)
  | Fin _, Infinity | Fin _, NegInfinity => Fin 0
  | Infinity, Fin b => if Rle_dec 0 b then Infinity else NegInfinity
  | NegInfinity, Fin b => if Rle_dec 0 b then NegInfinity else Infinity
  | Infinity, Infinity | Infinity, NegInfinity
  | NegInfinity, Infinity | NegInfinity, NegInfinity => NaN
  end.

(** [x < y], [x <= y] and [x === y]: every comparison with [NaN] is
    false. *)
Definition ltb (x y : number) : bool :=
  match x, y with
  | NaN, _ | _, NaN => false
  | Fin a, Fin b => if Rlt_dec a b then true else false
  | NegInfinity, NegInfinity => false
  | NegInfinity, _ => true
  | Infinity, _ => false
  | Fin _, Infinity => true
  | Fin _, NegInfinity => false
  end.

Definition leb (x y : number) : bool :=
  match x, y with
  | NaN, _ | _, NaN => false
  | Fin a, Fin b => if Rle_dec a b then true else false
  | NegInfinity, _ => true
  | Infinity, Infinity => true
  | Infinity, _ => false
  | Fin _, Infinity => true
  | Fin _, NegInfinity => false
  end.

Definition strict_eq (x y : number) : bool :=
  match x, y with
  | NaN, _ | _, NaN => false
  | Fin a, Fin b => if Req_dec_T a b then true else false
  | NegInfinity, NegInfinity | Infinity, Infinity => true
  | _, _ => false
  end.

(** [Number.isFinite]. *)
Definition isFinite (x : number) : bool :=
  match x with Fin _ => true | _ => false end.

Infix "+" := add : js_scope.
Infix "-" := sub : js_scope.
Infix "*" := mul : js_scope.
Infix "/" := div : js_scope.
Infix "<?" := ltb (at level 70) : js_scope.
Infix "<=?" := leb (at level 70) : js_scope.
Infix "===" := strict_eq (at level 70) : js_scope.

(** *** The [Math] object *)

Definition Math_PI : number := Fin PI.

Definition Math_sin (x : number) : number :=
  match x with Fin a => Fin (sin a) | _ => NaN end.

Definition Math_cos (x : number) : number :=
  match x with Fin a => Fin (cos a) | _ => NaN end.

Definition Math_sqrt (x : number) : number :=
  match x with
  | NaN | NegInfinity => NaN
  | Fin a => if Rlt_dec a 0 then NaN else Fin (sqrt a)
  | Infinity => Infinity
  end.

(** The angle of the point [(x, y)], in [(-PI, PI]]. *)
Definition atan2R (y x : R) : R :=
  if Rlt_dec 0 x then atan (y / x)
  else if Rlt_dec x 0 then
         (if Rle_dec 0 y then atan (y / x) + PI else atan (y / x) - PI)
  else if Rlt_dec 0 y then PI / 2
  else if Rlt_dec y 0 then - (PI / 2)
  else 0.

Definition Math_atan2 (y x : number) : number :=
  match y, x with
  | NaN, _ | _, NaN => NaN
  | Fin b, Fin a => Fin (atan2R b a)
  | Fin b, Infinity => Fin 0
  | Fin b, NegInfinity => if Rle_dec 0 b then Fin PI else Fin (- PI)
  | Infinity, Fin _ => Fin (PI / 2)
  | NegInfinity, Fin _ => Fin (- (PI / 2))
  | Infinity, Infinity => Fin (PI / 4)
  | Infinity, NegInfinity => Fin (3 * PI / 4)
  | NegInfinity, Infinity => Fin (- (PI / 4))
  | NegInfinity, NegInfinity => Fin (- (3 * PI / 4))
  end.

(** [Math.round]: the nearest integer, halves rounded up. *)
Definition Math_round (x : number) : number :=
  match x with
  | Fin a => Fin (IZR (Int_part (a + / 2)))
  | other => other
  end.

(** Number-to-string conversion as done by a template literal.  The
    page only ever converts results of [Math.round], which are
    integer-valued, so a finite value is printed as its integer
    part. *)
Definition toString (x : number) : string :=
  match x with
  | NaN => "NaN"
  | NegInfinity => "-Infinity"
  | Fin a => NilZero.string_of_int (Z.to_int (Int_part a))
  | Infinity => "Infinity"
  end.

End JS.

Import JS.

(* ================================================================= *)
(** ** Configuration and the distance helper *)

Local Open Scope string_scope.
Local Open Scope js_scope.

Definition TRIGGER_RADIUS : number := Fin 30.

(** Haversine formula for distance calculation. *)
Definition getDistance (lat1 lon1 lat2 lon2 : number) : number :=
  let R := Fin 6371000 in
  let phi1 := lat1 * Math_PI / Fin 180 in
  let phi2 := lat2 * Math_PI / Fin 180 in
  let dphi := (lat2 - lat1) * Math_PI / Fin 180 in
  let dlambda := (lon2 - lon1) * Math_PI / Fin 180 in
  let a :=
    Math_sin (dphi / Fin 2) * Math_sin (dphi / Fin 2) +
    Math_cos phi1 * Math_cos phi2 *
    Math_sin (dlambda / Fin 2) * Math_sin (dlambda / Fin 2) in
  let c := Fin 2 * Math_atan2 (Math_sqrt a) (Math_sqrt (Fin 1 - a)) in
  R * c.

(* ================================================================= *)
(** ** Data model *)

Record PointOfInterest : Type := {
  id : Z;
  name : string;
  lat : number;
  lon : number;
  audioSrc : string;
  description : string
}.

(** [LocationState extends PointOfInterest]: the catalog entry (the
    spread [...point]) together with the two mutable fields. *)
Record LocationState : Type := {
  point_of : PointOfInterest;
  played : bool;
  distance : number
}.

Record Coordinates : Type := {
  latitude : number;
  longitude : number
}.

Record GeolocationPosition : Type := { coords : Coordinates }.

Record GeolocationPositionError : Type := {
  code : Z;
  message : string
}.

(** The part of the [<audio>] element the page writes to. *)
Record HTMLAudioElement : Type := {
  src : string;
  muted : bool
}.

(** The three drafts of the page kept in the repository:
    [PageA] is the first draft in [src/app/page.tsx] (three POIs, AR
    button on every visited card), [PageB] the second draft in the
    same file (two POIs, AR button on POI 1 only), [Early] the draft
    in [src/unnamed/part_000] (two POIs, no AR view).  They share
    [getDistance] and [processLocationUpdate] verbatim and differ in
    the catalog, the playback effect, the unlock step and the AR
    button. *)
Inductive Draft : Type := PageA | PageB | Early.

(** **** Configuration *)

Definition poi1 : PointOfInterest := {|
  id := 1;
  name := "The Old Adams Cabin Site";
  lat := Fin (46106953 / 1000000);
  lon := Fin (- (77489467 / 1000000));
  audioSrc := "/oldcabin.m4a";
  description := "This is where the story of the family cabin unfolds. Listen to memories of growing up by the water."
|}.

Definition poi2 : PointOfInterest := {|
  id := 2;
  name := "Approx. Wylie Road Schoolhouse Location";
  lat := Fin (460997975 / 10000000);
  lon := Fin (- (774900301 / 10000000));
  audioSrc := "/oldcabin.m4a";
  description := "Imagine the long walk to the one-room schoolhouse. This audio clip shares what school was like in the 1940s."
|}.

Definition poi3 : PointOfInterest := {|
  id := 3;
  name := "Approx. 69 Lange Rd";
  lat := Fin (461581327 / 10000000);
  lon := Fin (- (77632293 / 1000000));
  audioSrc := "/oldcabin.m4a";
  description := "69 Lange Rd"
|}.

Definition pointsOfInterest (d : Draft) : list PointOfInterest :=
  match d with
  | PageA => [poi1; poi2; poi3]
  | PageB | Early => [poi1; poi2]
  end.

(** **** Component state

    The [useState] cells and the two refs of [Home]. *)
Record Home : Type := {
  locations : list LocationState;
  currentPosition : option Coordinates;
  statusMessage : string;
  activeAudio : option string;
  isWatching : bool;
  error : option string;
  showAR : bool;
  audioRef : option HTMLAudioElement;
  watchIdRef : option nat
}.

Definition setLocations (v : list LocationState) (st : Home) : Home :=
  {| locations := v; currentPosition := currentPosition st;
     statusMessage := statusMessage st; activeAudio := activeAudio st;
     isWatching := isWatching st; error := error st; showAR := showAR st;
     audioRef := audioRef st; watchIdRef := watchIdRef st |}.

Definition setCurrentPosition (v : option Coordinates) (st : Home) : Home :=
  {| locations := locations st; currentPosition := v;
     statusMessage := statusMessage st; activeAudio := activeAudio st;
     isWatching := isWatching st; error := error st; showAR := showAR st;
     audioRef := audioRef st; watchIdRef := watchIdRef st |}.

Definition setStatusMessage (v : string) (st : Home) : Home :=
  {| locations := locations st; currentPosition := currentPosition st;
     statusMessage := v; activeAudio := activeAudio st;
     isWatching := isWatching st; error := error st; showAR := showAR st;
     audioRef := audioRef st; watchIdRef := watchIdRef st |}.

Definition setActiveAudio (v : option string) (st : Home) : Home :=
  {| locations := locations st; currentPosition := currentPosition st;
     statusMessage := statusMessage st; activeAudio := v;
     isWatching := isWatching st; error := error st; showAR := showAR st;
     audioRef := audioRef st; watchIdRef := watchIdRef st |}.

Definition setIsWatching (v : bool) (st : Home) : Home :=
  {| locations := locations st; currentPosition := currentPosition st;
     statusMessage := statusMessage st; activeAudio := activeAudio st;
     isWatching := v; error := error st; showAR := showAR st;
     audioRef := audioRef st; watchIdRef := watchIdRef st |}.

Definition setError (v : option string) (st : Home) : Home :=
  {| locations := locations st; currentPosition := currentPosition st;
     statusMessage := statusMessage st; activeAudio := activeAudio st;
     isWatching := isWatching st; error := v; showAR := showAR st;
     audioRef := audioRef st; watchIdRef := watchIdRef st |}.

Definition setShowAR (v : bool) (st : Home) : Home :=
  {| locations := locations st; currentPosition := currentPosition st;
     statusMessage := statusMessage st; activeAudio := activeAudio st;
     isWatching := isWatching st; error := error st; showAR := v;
     audioRef := audioRef st; watchIdRef := watchIdRef st |}.

Definition setAudioRef (v : option HTMLAudioElement) (st : Home) : Home :=
  {| locations := locations st; currentPosition := currentPosition st;
     statusMessage := statusMessage st; activeAudio := activeAudio st;
     isWatching := isWatching st; error := error st; showAR := showAR st;
     audioRef := v; watchIdRef := watchIdRef st |}.

Definition setWatchIdRef (v : option nat) (st : Home) : Home :=
  {| locations := locations st; currentPosition := currentPosition st;
     statusMessage := statusMessage st; activeAudio := activeAudio st;
     isWatching := isWatching st; error := error st; showAR := showAR st;
     audioRef := audioRef st; watchIdRef := v |}.

(** [pointsOfInterest.map(p => ({ ...p, played: false, distance: Infinity }))]
    and the other initial values, for a given catalog; [sink] is the
    mounted [<audio>] element, if any. *)
Definition startWith (catalog : list PointOfInterest)
    (sink : option HTMLAudioElement) : Home := {|
  locations :=
    map (fun p => {| point_of := p; played := false; distance := Infinity |})
        catalog;
  currentPosition := None;
  statusMessage := "Click 'Start Tour' to begin.";
  activeAudio := None;
  isWatching := false;
  error := None;
  showAR := false;
  audioRef := sink;
  watchIdRef := None
|}.

Definition initialState (d : Draft) (sink : option HTMLAudioElement) : Home :=
  startWith (pointsOfInterest d) sink.

(* ================================================================= *)
(** ** The proximity engine: [processLocationUpdate]

    The handler is a state transformer on [Home].  Setter calls are
    applied in program order, so that of several calls to the same
    setter in one update the last one is the value rendered; the
    updater passed to [setLocations] is run once, on the registry of
    the state the update starts from. *)

(** [nearestPoint : LocationState | { distance: number }]. *)
Inductive Nearest : Type :=
| Sentinel (d : number)
| NearestIs (p : LocationState).

Definition nearest_distance (n : Nearest) : number :=
  match n with
  | Sentinel d => d
  | NearestIs p => distance p
  end.

(** [(nearestPoint as LocationState).name], printed in a template. *)
Definition nearest_name (n : Nearest) : string :=
  match n with
  | Sentinel _ => "undefined"
  | NearestIs p => name (point_of p)
  end.

(** The two [let] variables captured by the updater, and the state
    cells its setter calls write to. *)
Record Scan : Type := {
  nearestPoint : Nearest;
  didTriggerAudio : bool;
  cells : Home
}.

(** The callback given to [prevLocations.map]. *)
Definition visit (latitude longitude : number) (s : Scan) (point : LocationState)
  : Scan * LocationState :=
  let distance := getDistance latitude longitude
                    (lat (point_of point)) (lon (point_of point)) in
  let nearestPoint :=
    if distance <? nearest_distance (nearestPoint s)
    then NearestIs {| point_of := point_of point; played := played point;
                      distance := distance |}
    else nearestPoint s in
  if (distance <=? TRIGGER_RADIUS) && negb (played point) then
    let st := setError None (cells s) in
    let st := setActiveAudio (Some (audioSrc (point_of point))) st in
    let st := setStatusMessage
                ("Playing story for: " ++ name (point_of point)) st in
    ({| nearestPoint := nearestPoint; didTriggerAudio := true; cells := st |},
     {| point_of := point_of point; played := true; distance := distance |})
  else
    ({| nearestPoint := nearestPoint; didTriggerAudio := didTriggerAudio s;
        cells := cells s |},
     {| point_of := point_of point; played := played point;
        distance := distance |}).

(** [Array.prototype.map] with a callback that also mutates captured
    variables: elements are visited left to right. *)
Fixpoint map_scan {S A B : Type} (f : S -> A -> S * B) (s : S) (l : list A)
  : S * list B :=
  match l with
  | [] => (s, [])
  | x :: l' =>
      let (s1, y) := f s x in
      let (s2, ys) := map_scan f s1 l' in
      (s2, y :: ys)
  end.

Definition walkTowards (n : Nearest) : string :=
  "Walk towards " ++ nearest_name n ++ " (" ++
  toString (Math_round (nearest_distance n)) ++ "m away)".

Definition scanLocations (latitude longitude : number) (st : Home)
  : Scan * list LocationState :=
  map_scan (visit latitude longitude)
    {| nearestPoint := Sentinel Infinity; didTriggerAudio := false;
       cells := st |}
    (locations st).

Definition processLocationUpdate (position : GeolocationPosition) (st : Home)
  : Home :=
  let latitude := latitude (coords position) in
  let longitude := longitude (coords position) in
  let st := setCurrentPosition
              (Some {| latitude := latitude; longitude := longitude |}) st in
  let (s, updatedLocations) := scanLocations latitude longitude st in
  let st :=
    if negb (didTriggerAudio s) then
      if nearest_distance (nearestPoint s) === Infinity
      then setStatusMessage "Searching for points of interest..." (cells s)
      else setStatusMessage (walkTowards (nearestPoint s)) (cells s)
    else cells s in
  setLocations updatedLocations st.

(** A run of the engine over the fixes of a stream, in arrival order. *)
Definition processLocationUpdates (fixes : list GeolocationPosition) (st : Home)
  : Home :=
  fold_left (fun s position => processLocationUpdate position s) fixes st.

(* ================================================================= *)
(** ** Playback activation: the [activeAudio] effect *)

(** What [audioRef.current.play()] gives back: nothing (old engines),
    or a promise that is later fulfilled or rejected. *)
Inductive PlayResult : Type := NoPromise | Fulfilled | Rejected.

Definition autoplayNotice (d : Draft) : string :=
  match d with
  | PageA =>
      "Your browser blocked autoplay. Please press play on the audio player."
  | PageB | Early =>
      "Your browser blocked autoplay. Please press the play button on the audio player below."
  end.

(** The [catch] handler of the play promise. *)
Definition playRejected (d : Draft) (active : string) (st : Home) : Home :=
  let st := setError (Some (autoplayNotice d)) st in
  match d with
  | PageA => st
  | PageB | Early =>
      match find (fun p => (audioSrc p =? active)%string) (pointsOfInterest d) with
      | Some lastTriggeredPoint =>
          setStatusMessage
            ("Audio ready for: " ++ name lastTriggeredPoint ++ ". Press play.") st
      | None => st
      end
  end.

(** The body of the effect; [outcome] is the platform's answer to the
    playback attempt. *)
Definition audioPlaybackEffect (d : Draft) (outcome : PlayResult) (st : Home)
  : Home :=
  match activeAudio st, audioRef st with
  | Some active, Some audio =>
      if (active =? "")%string then st
      else
        let audio := {| src := active;
                        muted := match d with
                                 | PageA => muted audio
                                 | PageB | Early => false
                                 end |} in
        let st := setAudioRef (Some audio) st in
        match outcome with
        | Rejected => playRejected d active st
        | NoPromise | Fulfilled => st
        end
  | _, _ => st
  end.

Definition same_audio (a b : option string) : bool :=
  match a, b with
  | None, None => true
  | Some x, Some y => (x =? y)%string
  | _, _ => false
  end.

(** [useEffect(..., [activeAudio])]: after a handler has run, the
    effect runs only if [activeAudio] changed. *)
Definition commit (d : Draft) (outcome : PlayResult) (before after : Home)
  : Home :=
  if same_audio (activeAudio before) (activeAudio after) then after
  else audioPlaybackEffect d outcome after.

(* ================================================================= *)
(** ** Starting the tour and the position source callbacks *)

(** [handleStartTour], up to the call of [getCurrentPosition];
    [geolocation] tells whether [navigator.geolocation] exists.  The
    unlocking [play()] is taken to return a promise, whose outcome the
    page ignores; on an engine where [play()] returns [undefined] the
    call of [.catch] throws and the handler stops there, before
    [getCurrentPosition]: that path is not modelled. *)
Definition handleStartTour (d : Draft) (geolocation : bool) (st : Home) : Home :=
  if negb geolocation then
    setError (Some "Geolocation is not supported by your browser.") st
  else
    match audioRef st with
    | Some audio =>
        setAudioRef
          (Some {| src := src audio;
                   muted := match d with
                            | PageA => false
                            | PageB | Early => true
                            end |}) st
    | None => st
    end.

(** Success callback of [getCurrentPosition]; [watchId] is the handle
    returned by [watchPosition]. *)
Definition onInitialPosition (position : GeolocationPosition) (watchId : nat)
    (st : Home) : Home :=
  let st := setIsWatching true st in
  let st := setError None st in
  let st := setStatusMessage "Location activated. Walking tour started." st in
  let st := processLocationUpdate position st in
  setWatchIdRef (Some watchId) st.

(** Error callback of [getCurrentPosition]. *)
Definition onInitialError (err : GeolocationPositionError) (st : Home) : Home :=
  setError
    (Some ("Permission Denied: " ++ message err ++
           ". Please enable location services.")) st.

(** Error callback of [watchPosition]. *)
Definition onWatchError (err : GeolocationPositionError) (st : Home) : Home :=
  setError (Some ("Location Error: " ++ message err)) st.

(** Everything the host can deliver to the mounted component. *)
Inductive Event : Type :=
| StartTour (geolocation : bool)
| InitialPosition (position : GeolocationPosition) (watchId : nat)
| InitialError (err : GeolocationPositionError)
| WatchPosition (position : GeolocationPosition)
| WatchError (err : GeolocationPositionError)
| LaunchAR
| CloseAR.

Definition handle (d : Draft) (e : Event) (st : Home) : Home :=
  match e with
  | StartTour geolocation => handleStartTour d geolocation st
  | InitialPosition position watchId => onInitialPosition position watchId st
  | InitialError err => onInitialError err st
  | WatchPosition position => processLocationUpdate position st
  | WatchError err => onWatchError err st
  | LaunchAR => setShowAR true st
  | CloseAR => setShowAR false st
  end.

(** One event, followed by the effect when it is due. *)
Definition step (d : Draft) (e : Event) (outcome : PlayResult) (st : Home)
  : Home :=
  commit d outcome st (handle d e st).

(* ================================================================= *)
(** ** The AR launch button *)

(** Whether the card of [point] shows "Launch AR Experience". *)
Definition arButton (d : Draft) (st : Home) (point : LocationState) : bool :=
  match d with
  | PageA => played point
  | PageB => (id (point_of point) =? 1)%Z && played point && negb (showAR st)
  | Early => false
  end.

Definition arOffered (d : Draft) (st : Home) : bool :=
  existsb (arButton d st) (locations st).

(* ================================================================= *)
(** ** Reference formulas used to state the properties *)

(** The textbook haversine formula on the sphere of radius [radius]:
    [2 r asin (sqrt (sin^2 (dphi/2) + cos phi1 cos phi2 sin^2 (dlambda/2)))],
    angles in degrees. *)
Definition haversine (radius lat1 lon1 lat2 lon2 : R) : R :=
  let phi1 := (lat1 * PI / 180)%R in
  let phi2 := (lat2 * PI / 180)%R in
  let dphi := ((lat2 - lat1) * PI / 180)%R in
  let dlambda := ((lon2 - lon1) * PI / 180)%R in
  (2 * radius *
   asin (sqrt ((sin (dphi / 2))² + cos phi1 * cos phi2 * (sin (dlambda / 2))²)))%R.

(** The quantity [a] of [getDistance] when its arguments are finite. *)
Definition hav_a (lat1 lon1 lat2 lon2 : R) : R :=
  (sin ((lat2 - lat1) * PI / 180 / 2) * sin ((lat2 - lat1) * PI / 180 / 2) +
   cos (lat1 * PI / 180) * cos (lat2 * PI / 180) *
   sin ((lon2 - lon1) * PI / 180 / 2) * sin ((lon2 - lon1) * PI / 180 / 2))%R.

(** The distance the engine computes for a POI at a given fix. *)
Definition distanceTo (position : GeolocationPosition) (p : LocationState)
  : number :=
  getDistance (latitude (coords position)) (longitude (coords position))
    (lat (point_of p)) (lon (point_of p)).

(** What one update makes of a registry entry. *)
Definition refreshed (position : GeolocationPosition) (p : LocationState)
  : LocationState :=
  {| point_of := point_of p;
     played := played p || (distanceTo position p <=? TRIGGER_RADIUS);
     distance := distanceTo position p |}.

(** The trigger condition of one POI at a fix. *)
Definition qualifies (position : GeolocationPosition) (p : LocationState)
  : bool :=
  (distanceTo position p <=? TRIGGER_RADIUS) && negb (played p).

(** Number of visited POIs. *)
Definition visitedCount (l : list LocationState) : nat :=
  List.length (filter played l).

(* ================================================================= *)
(** ** Sample registries and fixes *)

Definition fixAt (lat lon : number) : GeolocationPosition :=
  {| coords := {| latitude := lat; longitude := lon |} |}.

(** Two markers on the Greenwich meridian, about 11 m north and 11 m
    south of the equator. *)
Definition northGate : PointOfInterest := {|
  id := 1; name := "North gate";
  lat := Fin (1 / 10000); lon := Fin 0;
  audioSrc := "/north.m4a"; description := "North of the line."
|}.

Definition southGate : PointOfInterest := {|
  id := 2; name := "South gate";
  lat := Fin (- (1 / 10000)); lon := Fin 0;
  audioSrc := "/south.m4a"; description := "South of the line."
|}.

Definition twoGates : list PointOfInterest := [northGate; southGate].

(** A fix on the equator, halfway between the two gates. *)
Definition onTheLine : GeolocationPosition := fixAt (Fin 0) (Fin 0).

(** The length of one ten-thousandth of a degree of meridian. *)
Definition gateDistance : number := Fin (6371000 * (1 / 10000 * PI / 180)).

(** The page on that registry after a first fix on the line. *)
Definition gatesVisited : Home :=
  processLocationUpdate onTheLine (startWith twoGates None).

(** A fix at the coordinates of a catalog entry. *)
Definition fixOn (p : PointOfInterest) : GeolocationPosition :=
  fixAt (lat p) (lon p).

Definition denied : GeolocationPositionError :=
  {| code := 1; message := "User denied Geolocation" |}.

Definition speaker : HTMLAudioElement := {| src := ""; muted := false |}.

(* ================================================================= *)
(** ** The distance helper in double precision *)

Module Double.

Local Open Scope float_scope.

Section Engine.

(** The engine's [Math.sin], [Math.cos] and [Math.atan2]; the
    language leaves their results implementation-approximated.
    [Math.sqrt] and the four operations are the IEEE-754 ones. *)
Variables Math_sin Math_cos : float -> float.
Variable Math_atan2 : float -> float -> float.

Definition Math_PI : float := 0x1.921fb54442d18p+1.

Definition getDistance (lat1 lon1 lat2 lon2 : float) : float :=
  let R := 6371e3 in
  let phi1 := lat1 * Math_PI / 180 in
  let phi2 := lat2 * Math_PI / 180 in
  let dphi := (lat2 - lat1) * Math_PI / 180 in
  let dlambda := (lon2 - lon1) * Math_PI / 180 in
  let a :=
    Math_sin (dphi / 2) * Math_sin (dphi / 2) +
    Math_cos phi1 * Math_cos phi2 *
    Math_sin (dlambda / 2) * Math_sin (dlambda / 2) in
  let c := 2 * Math_atan2 (PrimFloat.sqrt a) (PrimFloat.sqrt (1 - a)) in
  R * c.

End Engine.

(** Correctly rounded values of the sine and cosine at the four
    arguments that [getDistance (-2.5) (-180) 2.5 0] passes to them:
    2.5 degrees and 90 degrees in radians, as doubles. *)
Definition sinTable (x : float) : float :=
  if PrimFloat.eqb x 0x1.657184ae74487p-5 then 0x1.65547c4694e11p-5
  else if PrimFloat.eqb x 0x1.921fb54442d18p+0 then 1
  else PrimFloat.nan.

Definition cosTable (x : float) : float :=
  if PrimFloat.eqb (PrimFloat.abs x) 0x1.657184ae74487p-5
  then 0x1.ff833f9da45f7p-1
  else PrimFloat.nan.

(** [Math.atan2] on the cases the language fixes: [NaN] if either
    argument is [NaN]. *)
Definition atan2Table (y x : float) : float :=
  if PrimFloat.is_nan x then PrimFloat.nan
  else if PrimFloat.is_nan y then PrimFloat.nan
  else 0.

End Double.

(* ================================================================= *)
(** ** What the cards show, runs of events, and teardown *)

(** The distance line of a POI card. *)
Definition distanceLabel (d : Draft) (point : LocationState) : string :=
  if distance point === Infinity then
    match d with
    | PageA => "Distance: Not Available"
    | PageB | Early => "Distance: N/A"
    end
  else "Distance: " ++ toString (Math_round (distance point)) ++ "m".

(** The "Start Tour" button is rendered under [!isWatching]. *)
Definition startButtonShown (st : Home) : bool := negb (isWatching st).

(** The events of a session, each with the platform's answer to the
    playback attempt it may cause, in the order they are delivered. *)
Definition run (d : Draft) (es : list (Event * PlayResult)) (st : Home) : Home :=
  fold_left (fun s eo => step d (fst eo) (snd eo) s) es st.

(** The cleanup of the unmount effect: the watch handed to
    [clearWatch], if any. *)
Definition unmountCleanup (st : Home) : option nat := watchIdRef st.

Definition isInitialPosition (eo : Event * PlayResult) : bool :=
  match fst eo with
  | InitialPosition _ _ => true
  | _ => false
  end.

(** The handle registered by the last initial fix of a run. *)
Fixpoint lastWatch (es : list (Event * PlayResult)) (w : option nat) : option nat :=
  match es with
  | [] => w
  | (InitialPosition _ watchId, _) :: es' => lastWatch es' (Some watchId)
  | _ :: es' => lastWatch es' w
  end.

(* ================================================================= *)
(** ** The script-loading hook: [useScript] *)

Module UseScript.

(** A child of [document.body]; [node] is its identity. *)
Record Element : Type := {
  node : nat;
  tagName : string;
  src : string;
  async : bool
}.

(** The hook's state cell and the script its pending cleanup holds. *)
Record Hook : Type := {
  isLoaded : bool;
  script : option Element
}.

Definition initial : Hook := {| isLoaded := false; script := None |}.

Definition appendChild (body : list Element) (child : Element) : list Element :=
  (body ++ [child])%list.

(** [removeChild] fails (NotFoundError) when the node is not a child. *)
Definition removeChild (body : list Element) (child : Element)
  : option (list Element) :=
  if existsb (fun e => Nat.eqb (node e) (node child)) body
  then Some (filter (fun e => negb (Nat.eqb (node e) (node child))) body)
  else None.

(** The effect body; [fresh] is the identity of the node that
    [document.createElement] returns. *)
Definition effect (url : string) (fresh : nat) (h : Hook) (body : list Element)
  : Hook * list Element :=
  let created := {| node := fresh; tagName := "script"; src := url;
                    async := true |} in
  ({| isLoaded := isLoaded h; script := Some created |},
   appendChild body created).

(** The cleanup returned by the effect. *)
Definition cleanup (h : Hook) (body : list Element)
  : option (Hook * list Element) :=
  match script h with
  | Some created =>
      match removeChild body created with
      | Some body' => Some ({| isLoaded := isLoaded h; script := None |}, body')
      | None => None
      end
  | None => Some (h, body)
  end.

(** [script.onload]. *)
Definition onload (h : Hook) : Hook :=
  {| isLoaded := true; script := script h |}.

End UseScript.

(** **** The two scripts of [ARComponent] *)

Definition aframeUrl : string := "https://aframe.io/releases/1.5.0/aframe.min.js".

Definition mindarUrl : string :=
  "https://cdn.jsdelivr.net/npm/mind-ar@1.2.5/dist/mindar-image-aframe.prod.js".

(** Mounting [ARComponent] runs the effects of its two [useScript]
    hooks in order; [fa] and [fm] are the identities of the two
    script nodes created. *)
Definition arMount (fa fm : nat) (body : list UseScript.Element)
  : (UseScript.Hook * UseScript.Hook) * list UseScript.Element :=
  let (hA, body1) := UseScript.effect aframeUrl fa UseScript.initial body in
  let (hM, body2) := UseScript.effect mindarUrl fm UseScript.initial body1 in
  ((hA, hM), body2).

(** Unmounting runs the two cleanups. *)
Definition arUnmount (hooks : UseScript.Hook * UseScript.Hook)
    (body : list UseScript.Element) : option (list UseScript.Element) :=
  match UseScript.cleanup (fst hooks) body with
  | Some (_, body1) =>
      match UseScript.cleanup (snd hooks) body1 with
      | Some (_, body2) => Some body2
      | None => None
      end
  | None => None
  end.

(** The "Loading AR Libraries..." overlay is rendered under
    [!isAFrameLoaded || !isMindARLoaded]. *)
Definition arLoadingShown (hooks : UseScript.Hook * UseScript.Hook) : bool :=
  negb (UseScript.isLoaded (fst hooks)) || negb (UseScript.isLoaded (snd hooks)).

(* ================================================================= *)
(** * Properties *)

Arguments getDistance : simpl never.
Arguments distanceTo : simpl never.

(** ** Comparisons of finite numbers *)

Lemma leb_Fin (a b : R) : (Fin a <=? Fin b) = true <-> (a <= b)%R.
Proof.
  unfold leb. destruct (Rle_dec a b); split; intros; try assumption;
    try reflexivity; try discriminate; contradiction.
Qed.

Lemma ltb_Fin (a b : R) : (Fin a <? Fin b) = true <-> (a < b)%R.
Proof.
  unfold ltb. destruct (Rlt_dec a b); split; intros; try assumption;
    try reflexivity; try discriminate; contradiction.
Qed.

Lemma leb_Fin_false (a b : R) : (Fin a <=? Fin b) = false <-> (b < a)%R.
Proof.
  unfold leb. destruct (Rle_dec a b); split; intros; try discriminate;
    try reflexivity; lra.
Qed.

Lemma ltb_Fin_false (a b : R) : (Fin a <? Fin b) = false <-> (b <= a)%R.
Proof.
  unfold ltb. destruct (Rlt_dec a b); split; intros; try discriminate;
    try reflexivity; lra.
Qed.

Lemma div_Fin (a b : R) : b <> 0%R -> Fin a / Fin b = Fin (a / b).
Proof.
  intros Hb. unfold div. destruct (Req_dec_T b 0); [contradiction | reflexivity].
Qed.

Lemma sqrt_Fin (a : R) : (0 <= a)%R -> Math_sqrt (Fin a) = Fin (sqrt a).
Proof.
  intros Ha. unfold Math_sqrt. destruct (Rlt_dec a 0); [lra | reflexivity].
Qed.

(** ** The haversine term *)

Section Haversine.

Local Open Scope R_scope.

Lemma cos_product (m h : R) :
  cos (m - h) * cos (m + h) = 1 - (sin h)² - (sin m)².
Proof.
  rewrite cos_minus, cos_plus.
  pose proof (sin2_cos2 m) as Hm. pose proof (sin2_cos2 h) as Hh.
  unfold Rsqr in *. nra.
Qed.

Lemma hav_a_range (lat1 lon1 lat2 lon2 : R) :
  0 <= hav_a lat1 lon1 lat2 lon2 <= 1.
Proof.
  unfold hav_a.
  set (h := (lat2 - lat1) * PI / 180 / 2).
  set (m := (lat2 + lat1) * PI / 180 / 2).
  set (l := (lon2 - lon1) * PI / 180 / 2).
  replace (lat1 * PI / 180) with (m - h) by (unfold m, h; field).
  replace (lat2 * PI / 180) with (m + h) by (unfold m, h; field).
  rewrite cos_product.
  pose proof (sin2_cos2 m) as Hm. pose proof (sin2_cos2 h) as Hh.
  pose proof (sin2_cos2 l) as Hl.
  pose proof (Rle_0_sqr (sin m)). pose proof (Rle_0_sqr (cos m)).
  pose proof (Rle_0_sqr (sin h)). pose proof (Rle_0_sqr (cos h)).
  pose proof (Rle_0_sqr (sin l)). pose proof (Rle_0_sqr (cos l)).
  unfold Rsqr in *.
  set (p := sin h * sin h) in *. set (q := sin m * sin m) in *.
  assert (Hs : sin l * sin l <= 1) by lra.
  assert (Hs0 : 0 <= sin l * sin l) by lra.
  replace (p + (1 - p - q) * sin l * sin l)
    with (p * (1 - sin l * sin l) + (sin l * sin l) * (1 - q)) by ring.
  assert (Hp : 0 <= p <= 1) by lra.
  assert (Hq : 0 <= q <= 1) by lra.
  split; nra.
Qed.

Lemma hav_a_same (lat lon : R) : hav_a lat lon lat lon = 0.
Proof.
  unfold hav_a.
  replace ((lat - lat) * PI / 180 / 2) with 0 by field.
  replace ((lon - lon) * PI / 180 / 2) with 0 by field.
  rewrite sin_0. ring.
Qed.

(** On finite arguments every intermediate value of [getDistance] is
    finite. *)
Lemma getDistance_Fin (lat1 lon1 lat2 lon2 : R) :
  getDistance (Fin lat1) (Fin lon1) (Fin lat2) (Fin lon2) =
  Fin (6371000 *
       (2 * atan2R (sqrt (hav_a lat1 lon1 lat2 lon2))
                   (sqrt (1 - hav_a lat1 lon1 lat2 lon2)))).
Proof.
  pose proof (hav_a_range lat1 lon1 lat2 lon2) as Ha.
  unfold getDistance, Math_PI. cbn [mul sub add].
  rewrite !div_Fin by lra. cbn [mul sub add Math_sin Math_cos].
  fold (hav_a lat1 lon1 lat2 lon2).
  rewrite !sqrt_Fin by lra.
  reflexivity.
Qed.

Lemma atan2R_asin (a : R) :
  0 <= a <= 1 -> atan2R (sqrt a) (sqrt (1 - a)) = asin (sqrt a).
Proof.
  intros [H0 H1]. unfold atan2R.
  destruct (Req_dec_T a 1) as [-> | Hne].
  - replace (1 - 1) with 0 by ring. rewrite sqrt_0, sqrt_1, asin_1.
    destruct (Rlt_dec 0 0); [lra |]. destruct (Rlt_dec 0 1); [reflexivity | lra].
  - assert (Hpos : 0 < sqrt (1 - a)) by (apply sqrt_lt_R0; lra).
    destruct (Rlt_dec 0 (sqrt (1 - a))); [| contradiction].
    assert (Hlt : sqrt a < 1).
    { rewrite <- sqrt_1. apply sqrt_lt_1_alt. lra. }
    pose proof (sqrt_pos a).
    rewrite asin_atan by lra.
    rewrite Rsqr_sqrt by lra. reflexivity.
Qed.

Lemma getDistance_haversine (lat1 lon1 lat2 lon2 : R) :
  getDistance (Fin lat1) (Fin lon1) (Fin lat2) (Fin lon2) =
  Fin (haversine 6371000 lat1 lon1 lat2 lon2).
Proof.
  rewrite getDistance_Fin. f_equal.
  rewrite atan2R_asin by apply hav_a_range.
  unfold haversine, hav_a, Rsqr.
  replace (cos (lat1 * PI / 180) * cos (lat2 * PI / 180) *
           (sin ((lon2 - lon1) * PI / 180 / 2) * sin ((lon2 - lon1) * PI / 180 / 2)))
    with (cos (lat1 * PI / 180) * cos (lat2 * PI / 180) *
          sin ((lon2 - lon1) * PI / 180 / 2) * sin ((lon2 - lon1) * PI / 180 / 2))
    by ring.
  ring.
Qed.

Lemma getDistance_same (lat lon : R) :
  getDistance (Fin lat) (Fin lon) (Fin lat) (Fin lon) = Fin 0.
Proof.
  rewrite getDistance_Fin, hav_a_same. f_equal.
  replace (1 - 0) with 1 by ring. rewrite sqrt_0, sqrt_1.
  unfold atan2R. destruct (Rlt_dec 0 1); [| lra].
  replace (0 / 1) with 0 by field. rewrite atan_0. ring.
Qed.

End Haversine.

(** ** Order facts on numbers *)

Ltac js_cmp :=
  unfold ltb, leb, strict_eq in *;
  repeat match goal with
         | x : number |- _ => destruct x
         end;
  repeat match goal with
         | |- context [Rlt_dec ?a ?b] => destruct (Rlt_dec a b)
         | |- context [Rle_dec ?a ?b] => destruct (Rle_dec a b)
         | |- context [Req_dec_T ?a ?b] => destruct (Req_dec_T a b)
         | H : context [Rlt_dec ?a ?b] |- _ => destruct (Rlt_dec a b)
         | H : context [Rle_dec ?a ?b] |- _ => destruct (Rle_dec a b)
         | H : context [Req_dec_T ?a ?b] |- _ => destruct (Req_dec_T a b)
         end;
  simpl in *; try reflexivity; try discriminate; try tauto; try lra.

Lemma ltb_trans (a b c : number) :
  (a <? b) = true -> (b <? c) = true -> (a <? c) = true.
Proof. intros H1 H2. js_cmp. Qed.

Lemma leb_ltb_trans (a b c : number) :
  (a <=? b) = true -> (b <? c) = true -> (a <? c) = true.
Proof. intros H1 H2. js_cmp. Qed.

Lemma ltb_leb_false (a b : number) : (a <? b) = true -> (b <=? a) = false.
Proof. intros H. js_cmp. Qed.

Lemma leb_ltb_eq (a b : number) : (a <=? b) = (a <? b) || (a === b).
Proof. js_cmp. Qed.

(** Two numbers that are each below something are comparable. *)
Lemma ltb_total (a b u v : number) :
  (a <? u) = true -> (b <? v) = true -> (a <? b) = false -> (b <=? a) = true.
Proof. intros H1 H2 H3. js_cmp. Qed.

Lemma ltb_Infinity_strict_eq (a b : number) :
  (a <? b) = true -> (a === Infinity) = false.
Proof. intros H. js_cmp. Qed.

(** ** The scan over the registry *)

Section Scan.

Variable position : GeolocationPosition.

Lemma visit_snd (s : Scan) (p : LocationState) :
  snd (visit (latitude (coords position)) (longitude (coords position)) s p) = refreshed position p.
Proof.
  unfold visit, refreshed, distanceTo.
  destruct (_ <=? TRIGGER_RADIUS), (played p); reflexivity.
Qed.

Lemma visit_nearest (s : Scan) (p : LocationState) :
  nearestPoint (fst (visit (latitude (coords position)) (longitude (coords position)) s p)) =
  if distanceTo position p <? nearest_distance (nearestPoint s)
  then NearestIs {| point_of := point_of p; played := played p;
                    distance := distanceTo position p |}
  else nearestPoint s.
Proof.
  unfold visit, distanceTo.
  destruct (_ <=? TRIGGER_RADIUS), (played p); reflexivity.
Qed.

Lemma visit_quiet (s : Scan) (p : LocationState) :
  qualifies position p = false ->
  didTriggerAudio (fst (visit (latitude (coords position)) (longitude (coords position)) s p)) = didTriggerAudio s /\
  cells (fst (visit (latitude (coords position)) (longitude (coords position)) s p)) = cells s.
Proof.
  unfold qualifies, visit, distanceTo. intros ->.
  split; reflexivity.
Qed.

Lemma visit_trigger (s : Scan) (p : LocationState) :
  qualifies position p = true ->
  didTriggerAudio (fst (visit (latitude (coords position)) (longitude (coords position)) s p)) = true /\
  cells (fst (visit (latitude (coords position)) (longitude (coords position)) s p)) =
  setStatusMessage ("Playing story for: " ++ name (point_of p))
    (setActiveAudio (Some (audioSrc (point_of p))) (setError None (cells s))).
Proof.
  unfold qualifies, visit, distanceTo. intros ->.
  split; reflexivity.
Qed.

Lemma map_scan_app {S A B : Type} (f : S -> A -> S * B) (l1 l2 : list A) (s : S) :
  map_scan f s (l1 ++ l2) =
  (fst (map_scan f (fst (map_scan f s l1)) l2),
   (snd (map_scan f s l1) ++ snd (map_scan f (fst (map_scan f s l1)) l2))%list).
Proof.
  revert s. induction l1 as [| x l1 IH]; intros s; simpl.
  - now destruct (map_scan f s l2).
  - destruct (f s x) as [s1 y]. rewrite IH.
    destruct (map_scan f s1 l1) as [s2 ys]. simpl.
    now destruct (map_scan f s2 l2).
Qed.

Lemma map_scan_cons {S A B : Type} (f : S -> A -> S * B) (x : A) (l : list A) (s : S) :
  map_scan f s (x :: l) =
  (fst (map_scan f (fst (f s x)) l),
   snd (f s x) :: snd (map_scan f (fst (f s x)) l)).
Proof.
  simpl. destruct (f s x) as [s1 y]. simpl. now destruct (map_scan f s1 l).
Qed.

(** Every entry is refreshed independently of the others. *)
Lemma scan_snd (l : list LocationState) (s : Scan) :
  snd (map_scan (visit (latitude (coords position)) (longitude (coords position))) s l) = map (refreshed position) l.
Proof.
  revert s. induction l as [| p l IH]; intros s.
  - reflexivity.
  - rewrite map_scan_cons. cbn [snd map]. now rewrite visit_snd, IH.
Qed.

(** Entries that do not qualify leave the flag and the cells alone. *)
Lemma scan_quiet (l : list LocationState) (s : Scan) :
  (forall q, In q l -> qualifies position q = false) ->
  didTriggerAudio (fst (map_scan (visit (latitude (coords position)) (longitude (coords position))) s l)) =
    didTriggerAudio s /\
  cells (fst (map_scan (visit (latitude (coords position)) (longitude (coords position))) s l)) = cells s.
Proof.
  revert s. induction l as [| p l IH]; intros s Hq.
  - split; reflexivity.
  - rewrite map_scan_cons. cbn [fst].
    destruct (IH (fst (visit (latitude (coords position)) (longitude (coords position)) s p))) as [Hd Hc].
    { intros q Hin. apply Hq. now right. }
    destruct (visit_quiet s p) as [Hd' Hc'].
    { apply Hq. now left. }
    rewrite Hd, Hc, Hd', Hc'. split; reflexivity.
Qed.

(** The setter calls that survive are those of the last qualifying
    entry. *)
Lemma scan_last_trigger (l1 l2 : list LocationState) (p : LocationState) (s : Scan) :
  qualifies position p = true ->
  (forall q, In q l2 -> qualifies position q = false) ->
  let s' := fst (map_scan (visit (latitude (coords position)) (longitude (coords position))) s (l1 ++ p :: l2)) in
  didTriggerAudio s' = true /\
  activeAudio (cells s') = Some (audioSrc (point_of p)) /\
  statusMessage (cells s') = "Playing story for: " ++ name (point_of p) /\
  error (cells s') = None.
Proof.
  intros Hp Hl2 s'. subst s'.
  rewrite map_scan_app. cbn [fst]. rewrite map_scan_cons. cbn [fst].
  set (s1 := fst (map_scan (visit (latitude (coords position)) (longitude (coords position))) s l1)).
  destruct (scan_quiet l2 (fst (visit (latitude (coords position)) (longitude (coords position)) s1 p)) Hl2) as [Hd Hc].
  destruct (visit_trigger s1 p Hp) as [Hd' Hc'].
  rewrite Hd, Hc, Hd', Hc'. repeat split; reflexivity.
Qed.

(** The error cell after a scan: cleared by a trigger, otherwise
    untouched; the other cells the scan never writes. *)
Lemma scan_frame (l : list LocationState) (s : Scan) :
  let s' := fst (map_scan (visit (latitude (coords position)) (longitude (coords position))) s l) in
  locations (cells s') = locations (cells s) /\
  currentPosition (cells s') = currentPosition (cells s) /\
  isWatching (cells s') = isWatching (cells s) /\
  showAR (cells s') = showAR (cells s) /\
  audioRef (cells s') = audioRef (cells s) /\
  watchIdRef (cells s') = watchIdRef (cells s).
Proof.
  revert s. induction l as [| p l IH]; intros s; cbv zeta.
  - simpl. repeat split; reflexivity.
  - rewrite map_scan_cons. cbn [fst].
    specialize (IH (fst (visit (latitude (coords position)) (longitude (coords position)) s p))). cbv zeta in IH.
    destruct IH as (H1 & H2 & H3 & H4 & H5 & H6).
    rewrite H1, H2, H3, H4, H5, H6.
    unfold visit. destruct (_ && _); repeat split; reflexivity.
Qed.

End Scan.

(** ** The running minimum *)

Section Nearest.

Variable position : GeolocationPosition.

Local Notation "'scan'" :=
  (map_scan (visit (latitude (coords position)) (longitude (coords position)))).
Local Notation "'seen' p" :=
  (NearestIs {| point_of := point_of p; played := played p;
                distance := distanceTo position p |})
  (at level 10, p at level 9).

(** Entries that are not strictly nearer leave the minimum alone. *)
Lemma scan_nearest_keep (l : list LocationState) (s : Scan) :
  (forall q, In q l ->
     (distanceTo position q <? nearest_distance (nearestPoint s)) = false) ->
  nearestPoint (fst (scan s l)) = nearestPoint s.
Proof.
  revert s. induction l as [| p l IH]; intros s Hq.
  - reflexivity.
  - rewrite map_scan_cons. cbn [fst].
    assert (Hp : nearestPoint (fst (visit (latitude (coords position))
                                      (longitude (coords position)) s p)) =
                 nearestPoint s).
    { rewrite visit_nearest, Hq; [reflexivity | now left]. }
    rewrite IH; [exact Hp |].
    intros q Hin. rewrite Hp. apply Hq. now right.
Qed.

(** The minimum after a scan is either the one the scan started from,
    or the first entry, in registry order, among those at the least
    distance. *)
Lemma scan_nearest (l : list LocationState) (s : Scan) :
  (nearestPoint (fst (scan s l)) = nearestPoint s /\
   forall q, In q l ->
     (distanceTo position q <? nearest_distance (nearestPoint s)) = false)
  \/
  (exists l1 p l2,
     l = (l1 ++ p :: l2)%list /\
     nearestPoint (fst (scan s l)) = seen p /\
     (distanceTo position p <? nearest_distance (nearestPoint s)) = true /\
     (forall q, In q l1 ->
        (distanceTo position q <=? distanceTo position p) = false) /\
     (forall q, In q l2 ->
        (distanceTo position q <? distanceTo position p) = false)).
Proof.
  revert s. induction l as [| x l IH]; intros s.
  - left. split; [reflexivity | intros q []].
  - rewrite map_scan_cons. cbn [fst].
    set (s1 := fst (visit (latitude (coords position))
                      (longitude (coords position)) s x)).
    assert (Hs1 : nearestPoint s1 =
                  if distanceTo position x <? nearest_distance (nearestPoint s)
                  then seen x else nearestPoint s)
      by apply visit_nearest.
    destruct (distanceTo position x <? nearest_distance (nearestPoint s)) eqn:Hx.
    + destruct (IH s1) as [[Hn Hall] | (l1 & p & l2 & Hl & Hn & Hp & H1 & H2)].
      * right. exists [], x, l. rewrite Hn, Hs1.
        repeat split; try assumption; try reflexivity.
        -- intros q [].
        -- intros q Hin. specialize (Hall q Hin). now rewrite Hs1 in Hall.
      * right. exists (x :: l1), p, l2. rewrite Hs1 in Hp. simpl in Hp.
        repeat split; try assumption.
        -- now rewrite Hl.
        -- eapply ltb_trans; eassumption.
        -- intros q [Heq | Hin]; [subst q; now apply ltb_leb_false | now apply H1].
    + destruct (IH s1) as [[Hn Hall] | (l1 & p & l2 & Hl & Hn & Hp & H1 & H2)].
      * left. rewrite Hn, Hs1. split; [reflexivity |].
        intros q [Heq | Hin]; [subst q; assumption |].
        specialize (Hall q Hin). now rewrite Hs1 in Hall.
      * right. exists (x :: l1), p, l2. rewrite Hs1 in Hp.
        repeat split; try assumption.
        -- now rewrite Hl.
        -- intros q [Heq | Hin]; [subst q | now apply H1].
           destruct (distanceTo position x <=? distanceTo position p) eqn:Hle;
             [| reflexivity].
           rewrite (leb_ltb_trans _ _ _ Hle Hp) in Hx. discriminate.
Qed.

(** The entry that is first among those at the least distance is the
    one the scan ends on. *)
Lemma scan_nearest_first (l1 l2 : list LocationState) (p : LocationState) :
  (distanceTo position p <? Infinity) = true ->
  (forall q, In q l1 ->
     (distanceTo position q <=? distanceTo position p) = false) ->
  (forall q, In q l2 ->
     (distanceTo position q <? distanceTo position p) = false) ->
  forall st,
    nearestPoint
      (fst (scan {| nearestPoint := Sentinel Infinity; didTriggerAudio := false;
                    cells := st |} (l1 ++ p :: l2)%list)) = seen p.
Proof.
  intros Hp H1 H2 st.
  rewrite map_scan_app. cbn [fst]. rewrite map_scan_cons. cbn [fst].
  set (s0 := {| nearestPoint := Sentinel Infinity; didTriggerAudio := false;
                cells := st |}).
  set (s1 := fst (scan s0 l1)).
  assert (Hlt : (distanceTo position p <? nearest_distance (nearestPoint s1))
                = true).
  { destruct (scan_nearest l1 s0) as [[Hn _] | (a & q & b & Hl & Hn & Hq & _ & Hb)].
    - fold s1 in Hn. rewrite Hn. exact Hp.
    - fold s1 in Hn. rewrite Hn. simpl.
      assert (Hin : In q l1) by (rewrite Hl; apply in_elt).
      specialize (H1 q Hin).
      destruct (distanceTo position p <? distanceTo position q) eqn:Hpq;
        [reflexivity |].
      simpl in Hq.
      rewrite (ltb_total _ _ _ _ Hp Hq Hpq) in H1. discriminate. }
  rewrite scan_nearest_keep.
  - rewrite visit_nearest, Hlt. reflexivity.
  - intros q Hin. rewrite visit_nearest, Hlt. simpl. now apply H2.
Qed.

End Nearest.

(** ** One update, cell by cell *)

Lemma processLocationUpdate_eq (position : GeolocationPosition) (st : Home) :
  processLocationUpdate position st =
  let st0 := setCurrentPosition (Some (coords position)) st in
  let s := fst (scanLocations (latitude (coords position))
                  (longitude (coords position)) st0) in
  setLocations (map (refreshed position) (locations st))
    (if negb (didTriggerAudio s) then
       if nearest_distance (nearestPoint s) === Infinity
       then setStatusMessage "Searching for points of interest..." (cells s)
       else setStatusMessage (walkTowards (nearestPoint s)) (cells s)
     else cells s).
Proof.
  unfold processLocationUpdate.
  replace {| latitude := latitude (coords position);
             longitude := longitude (coords position) |}
    with (coords position) by (destruct (coords position); reflexivity).
  cbv zeta.
  pose proof (scan_snd position
                (locations (setCurrentPosition (Some (coords position)) st))
                {| nearestPoint := Sentinel Infinity; didTriggerAudio := false;
                   cells := setCurrentPosition (Some (coords position)) st |})
    as Hsnd.
  unfold scanLocations in *.
  destruct (map_scan _ _ _) as [s upd]. simpl in Hsnd. subst upd. reflexivity.
Qed.

(** The registry after an update: every entry refreshed on its own. *)
Lemma locations_processLocationUpdate (position : GeolocationPosition) (st : Home) :
  locations (processLocationUpdate position st) =
  map (refreshed position) (locations st).
Proof. rewrite processLocationUpdate_eq. reflexivity. Qed.

(** ** Non-finite coordinates *)

Lemma sub_nonfinite_r (x y : number) :
  isFinite y = false -> isFinite (x - y) = false.
Proof. destruct x, y; simpl; intros H; try reflexivity; discriminate. Qed.

Lemma mul_PI_nonfinite (x : number) :
  isFinite x = false -> isFinite (x * Math_PI) = false.
Proof.
  pose proof PI_RGT_0 as Hpi.
  destruct x; simpl; intros H; try reflexivity; try discriminate;
    unfold scale_inf; destruct (Rlt_dec 0 PI); try reflexivity; lra.
Qed.

Lemma div_nonfinite (x : number) (c : R) :
  (0 < c)%R -> isFinite x = false -> isFinite (x / Fin c) = false.
Proof.
  intros Hc. destruct x; simpl; intros H; try reflexivity; try discriminate;
    destruct (Rle_dec 0 c); try reflexivity; lra.
Qed.

Lemma sin_nonfinite (x : number) : isFinite x = false -> Math_sin x = NaN.
Proof. destruct x; simpl; intros H; try reflexivity; discriminate. Qed.

Lemma mul_NaN_r (x : number) : x * NaN = NaN.
Proof. now destruct x. Qed.

Lemma add_NaN_r (x : number) : x + NaN = NaN.
Proof. now destruct x. Qed.

(** A fix with a non-finite coordinate is at distance [NaN] from
    everything. *)
Lemma getDistance_nonfinite (lat1 lon1 lat2 lon2 : number) :
  isFinite lat1 = false \/ isFinite lon1 = false ->
  getDistance lat1 lon1 lat2 lon2 = NaN.
Proof.
  intros H. unfold getDistance.
  assert (Ha : Math_sin ((lat2 - lat1) * Math_PI / Fin 180 / Fin 2) *
               Math_sin ((lat2 - lat1) * Math_PI / Fin 180 / Fin 2) +
               Math_cos (lat1 * Math_PI / Fin 180) *
               Math_cos (lat2 * Math_PI / Fin 180) *
               Math_sin ((lon2 - lon1) * Math_PI / Fin 180 / Fin 2) *
               Math_sin ((lon2 - lon1) * Math_PI / Fin 180 / Fin 2) = NaN).
  { destruct H as [H | H].
    - rewrite (sin_nonfinite ((lat2 - lat1) * Math_PI / Fin 180 / Fin 2)).
      + reflexivity.
      + apply div_nonfinite; [lra |]. apply div_nonfinite; [lra |].
        apply mul_PI_nonfinite. now apply sub_nonfinite_r.
    - rewrite (sin_nonfinite ((lon2 - lon1) * Math_PI / Fin 180 / Fin 2)).
      + now rewrite !mul_NaN_r, add_NaN_r.
      + apply div_nonfinite; [lra |]. apply div_nonfinite; [lra |].
        apply mul_PI_nonfinite. now apply sub_nonfinite_r. }
  cbv zeta. rewrite Ha. reflexivity.
Qed.

(** ** Rounding *)

Lemma Int_part_IZR (z : Z) : Int_part (IZR z) = z.
Proof. symmetry. apply Int_part_spec. lra. Qed.

Lemma Math_round_nearest (a : R) :
  Math_round (Fin a) = Fin (IZR (Int_part (a + / 2))) /\
  (a - / 2 < IZR (Int_part (a + / 2)) <= a + / 2)%R.
Proof.
  split; [reflexivity |].
  destruct (base_Int_part (a + / 2)) as [H1 H2]. lra.
Qed.

Lemma toString_round (a : R) :
  toString (Math_round (Fin a)) =
  NilZero.string_of_int (Z.to_int (Int_part (a + / 2))).
Proof. simpl. now rewrite Int_part_IZR. Qed.

(** ** Distances along a meridian and a lower bound *)

Section Bounds.

Local Open Scope R_scope.

Lemma PI_gt_3 : 3 < PI.
Proof. pose proof PI2_3_2. lra. Qed.

Lemma Rabs_le_inv (x b : R) : Rabs x <= b -> - b <= x <= b.
Proof. unfold Rabs. destruct (Rcase_abs x); lra. Qed.

Lemma Rabs_sin (h : R) : Rabs h <= PI -> Rabs (sin h) = sin (Rabs h).
Proof.
  intros Hh. destruct (Rle_dec 0 h) as [Hpos | Hneg].
  - rewrite (Rabs_pos_eq h) in * by assumption.
    apply Rabs_pos_eq. now apply sin_ge_0.
  - assert (Hlt : h < 0) by lra.
    rewrite (Rabs_left h) in * by assumption.
    rewrite sin_neg. apply Rabs_left1.
    assert (0 <= sin (- h)) by (apply sin_ge_0; lra).
    rewrite sin_neg in *. lra.
Qed.

Lemma cos_latitude (lat : R) : Rabs lat <= 90 -> 0 <= cos (lat * PI / 180).
Proof.
  intros H. apply Rabs_le_inv in H. pose proof PI_RGT_0 as Hpi.
  assert (0 <= (lat + 90) * PI) by (apply Rmult_le_pos; lra).
  assert (0 <= (90 - lat) * PI) by (apply Rmult_le_pos; lra).
  apply cos_ge_0; lra.
Qed.

Lemma half_angle_abs (x : R) :
  Rabs (x * PI / 180 / 2) = Rabs x * PI / 180 / 2.
Proof.
  pose proof PI_RGT_0 as Hpi.
  replace (x * PI / 180 / 2) with (x * (PI / 360)) by field.
  rewrite Rabs_mult, (Rabs_pos_eq (PI / 360)) by lra. field.
Qed.

Lemma half_angle_bound (x : R) :
  Rabs x <= 180 -> Rabs (x * PI / 180 / 2) <= PI / 2.
Proof.
  intros H. rewrite half_angle_abs. pose proof PI_RGT_0 as Hpi.
  assert (0 <= (180 - Rabs x) * PI) by (apply Rmult_le_pos; lra).
  lra.
Qed.

(** Along a meridian the distance is the arc length. *)
Lemma getDistance_meridian (lat1 lat2 lon : R) :
  Rabs (lat2 - lat1) <= 180 ->
  getDistance (Fin lat1) (Fin lon) (Fin lat2) (Fin lon) =
  Fin (6371000 * (Rabs (lat2 - lat1) * PI / 180)).
Proof.
  intros Hd. rewrite getDistance_haversine. f_equal. unfold haversine.
  replace ((lon - lon) * PI / 180 / 2) with 0 by field.
  rewrite sin_0. replace (0²) with 0 by (unfold Rsqr; ring).
  rewrite Rmult_0_r, Rplus_0_r, sqrt_Rsqr_abs.
  set (h := (lat2 - lat1) * PI / 180 / 2).
  pose proof PI_RGT_0 as Hpi.
  assert (Hh : Rabs h = Rabs (lat2 - lat1) * PI / 180 / 2)
    by apply half_angle_abs.
  assert (Hb : Rabs h <= PI / 2) by (now apply half_angle_bound).
  pose proof (Rabs_pos h).
  rewrite Rabs_sin by lra.
  rewrite asin_sin by lra.
  rewrite Hh. field.
Qed.

(** Between two latitudes in range, the distance is at least the
    length of the meridian arc between the two parallels. *)
Lemma getDistance_lower (lat1 lon1 lat2 lon2 : R) :
  Rabs lat1 <= 90 -> Rabs lat2 <= 90 ->
  exists d,
    getDistance (Fin lat1) (Fin lon1) (Fin lat2) (Fin lon2) = Fin d /\
    6371000 * (Rabs (lat2 - lat1) * PI / 180) <= d.
Proof.
  intros H1 H2. rewrite getDistance_haversine. eexists. split; [reflexivity |].
  unfold haversine.
  pose proof PI_RGT_0 as Hpi.
  set (h := (lat2 - lat1) * PI / 180 / 2).
  set (l := (lon2 - lon1) * PI / 180 / 2).
  set (a := (sin h)² + cos (lat1 * PI / 180) * cos (lat2 * PI / 180) * (sin l)²).
  assert (Hrange : 0 <= a <= 1).
  { pose proof (hav_a_range lat1 lon1 lat2 lon2) as Hr.
    unfold hav_a in Hr. fold h l in Hr. unfold a, Rsqr. lra. }
  assert (Hc1 : 0 <= cos (lat1 * PI / 180)) by (now apply cos_latitude).
  assert (Hc2 : 0 <= cos (lat2 * PI / 180)) by (now apply cos_latitude).
  assert (Hge : (sin h)² <= a).
  { unfold a.
    assert (0 <= cos (lat1 * PI / 180) * cos (lat2 * PI / 180) * (sin l)²).
    { apply Rmult_le_pos; [now apply Rmult_le_pos | apply Rle_0_sqr]. }
    lra. }
  assert (Hh : Rabs h = Rabs (lat2 - lat1) * PI / 180 / 2)
    by apply half_angle_abs.
  assert (Hdiff : Rabs (lat2 - lat1) <= 180).
  { apply Rabs_le_inv in H1. apply Rabs_le_inv in H2.
    apply Rabs_le. lra. }
  assert (Hb : Rabs h <= PI / 2) by (now apply half_angle_bound).
  pose proof (Rabs_pos h) as Hh0.
  assert (Hs : sin (Rabs h) <= sqrt a).
  { rewrite <- Rabs_sin by lra. rewrite <- sqrt_Rsqr_abs.
    apply sqrt_le_1; [apply Rle_0_sqr | lra | exact Hge]. }
  assert (Hsq : -1 <= sqrt a <= 1).
  { pose proof (sqrt_pos a). split; [lra |].
    rewrite <- sqrt_1. apply sqrt_le_1; lra. }
  pose proof (asin_bound (sqrt a)) as Hab.
  pose proof (sin_asin (sqrt a) Hsq) as Hsa.
  assert (Hth : Rabs h <= asin (sqrt a)).
  { destruct (Rle_dec (Rabs h) (asin (sqrt a))) as [Hle | Hnle]; [exact Hle |].
    assert (Hlt : sin (asin (sqrt a)) < sin (Rabs h))
      by (apply sin_increasing_1; lra).
    lra. }
  rewrite Hh in Hth. nra.
Qed.

End Bounds.

(* ================================================================= *)
(** * The distance helper *)


(* ================================================================= *)
(** * The proximity engine *)

Lemma processLocationUpdate_trigger (position : GeolocationPosition) (st : Home)
    (l1 l2 : list LocationState) (p : LocationState) :
  locations st = (l1 ++ p :: l2)%list ->
  qualifies position p = true ->
  (forall q, In q l2 -> qualifies position q = false) ->
  activeAudio (processLocationUpdate position st) = Some (audioSrc (point_of p)) /\
  statusMessage (processLocationUpdate position st) =
    "Playing story for: " ++ name (point_of p) /\
  error (processLocationUpdate position st) = None.
Proof.
  intros Hl Hp Hl2. rewrite processLocationUpdate_eq. cbv zeta.
  unfold scanLocations.
  replace (locations (setCurrentPosition (Some (coords position)) st))
    with (l1 ++ p :: l2)%list by (symmetry; exact Hl).
  destruct (scan_last_trigger position l1 l2 p
              {| nearestPoint := Sentinel Infinity; didTriggerAudio := false;
                 cells := setCurrentPosition (Some (coords position)) st |}
              Hp Hl2) as (Hd & Ha & Hm & He).
  rewrite Hd. simpl. auto.
Qed.

Lemma processLocationUpdate_quiet (position : GeolocationPosition) (st : Home) :
  (forall q, In q (locations st) -> qualifies position q = false) ->
  let n := nearestPoint
             (fst (scanLocations (latitude (coords position))
                     (longitude (coords position))
                     (setCurrentPosition (Some (coords position)) st))) in
  processLocationUpdate position st =
  setLocations (map (refreshed position) (locations st))
    (setStatusMessage
       (if nearest_distance n === Infinity
        then "Searching for points of interest..."
        else walkTowards n)
       (setCurrentPosition (Some (coords position)) st)).
Proof.
  intros Hq n. rewrite processLocationUpdate_eq. cbv zeta. fold n.
  unfold scanLocations.
  destruct (scan_quiet position
              (locations (setCurrentPosition (Some (coords position)) st))
              {| nearestPoint := Sentinel Infinity; didTriggerAudio := false;
                 cells := setCurrentPosition (Some (coords position)) st |})
    as [Hd Hc]; [exact Hq |].
  rewrite Hd, Hc. simpl.
  destruct (nearest_distance n === Infinity); reflexivity.
Qed.

Lemma refreshed_played (position : GeolocationPosition) (p : LocationState) :
  played (refreshed position p) = played p || qualifies position p.
Proof.
  unfold refreshed, qualifies. simpl.
  destruct (played p), (_ <=? TRIGGER_RADIUS); reflexivity.
Qed.

Lemma nth_error_refreshed (position : GeolocationPosition) (st : Home)
    (i : nat) (p : LocationState) :
  nth_error (locations st) i = Some p ->
  nth_error (locations (processLocationUpdate position st)) i =
  Some (refreshed position p).
Proof.
  intros H. rewrite locations_processLocationUpdate.
  now apply map_nth_error.
Qed.

(** *** The two gates, seen from the line *)

Lemma gate_distance (lat0 : R) :
  (Rabs lat0 <= 180)%R ->
  getDistance (Fin 0) (Fin 0) (Fin lat0) (Fin 0) =
  Fin (6371000 * (Rabs lat0 * PI / 180)).
Proof.
  intros H. rewrite getDistance_meridian.
  - now replace (lat0 - 0)%R with lat0 by ring.
  - now replace (lat0 - 0)%R with lat0 by ring.
Qed.

Lemma north_distance (b : bool) (d : number) :
  distanceTo onTheLine {| point_of := northGate; played := b; distance := d |} =
  gateDistance.
Proof.
  unfold distanceTo. simpl. rewrite gate_distance.
  - rewrite Rabs_pos_eq by lra. reflexivity.
  - rewrite Rabs_pos_eq by lra. lra.
Qed.

Lemma south_distance (b : bool) (d : number) :
  distanceTo onTheLine {| point_of := southGate; played := b; distance := d |} =
  gateDistance.
Proof.
  unfold distanceTo. simpl. rewrite gate_distance.
  - rewrite Rabs_left by lra. unfold gateDistance. f_equal. lra.
  - rewrite Rabs_left by lra. lra.
Qed.

Lemma gate_within : (gateDistance <=? TRIGGER_RADIUS) = true.
Proof. unfold gateDistance. apply leb_Fin. pose proof PI_4. lra. Qed.

Lemma gatesVisited_locations :
  locations gatesVisited =
  [ {| point_of := northGate; played := true; distance := gateDistance |};
    {| point_of := southGate; played := true; distance := gateDistance |} ].
Proof.
  unfold gatesVisited. rewrite locations_processLocationUpdate.
  unfold startWith, twoGates. cbn [locations map]. unfold refreshed.
  cbn [point_of played]. rewrite north_distance, south_distance, gate_within.
  reflexivity.
Qed.

(** C1, as stated, fails: with both gates within the radius and
    unvisited, one update marks both visited, and the narration that
    is activated and named is that of the later gate. *)
Lemma two_gates_both_trigger :
  let st := startWith twoGates None in
  let st' := processLocationUpdate onTheLine st in
  map (qualifies onTheLine) (locations st) = [true; true] /\
  visitedCount (locations st) = 0 /\
  visitedCount (locations st') = 2 /\
  statusMessage st' = "Playing story for: South gate" /\
  activeAudio st' = Some "/south.m4a".
Proof.
  cbv zeta.
  assert (Hq : map (qualifies onTheLine) (locations (startWith twoGates None))
               = [true; true]).
  { simpl. unfold qualifies. rewrite north_distance, south_distance, gate_within.
    reflexivity. }
  split; [exact Hq |]. split; [reflexivity |]. split.
  - rewrite locations_processLocationUpdate. simpl.
    unfold visitedCount, refreshed. simpl.
    rewrite north_distance, south_distance, gate_within. reflexivity.
  - simpl in Hq. injection Hq as Hn Hs.
    destruct (processLocationUpdate_trigger onTheLine (startWith twoGates None)
                [ {| point_of := northGate; played := false; distance := Infinity |} ]
                []
                {| point_of := southGate; played := false; distance := Infinity |})
      as (Ha & Hm & _); [reflexivity | exact Hs | intros q [] |].
    split; [exact Hm | exact Ha].
Qed.

(** C1, amended.  In one update every entry that is within the radius
    and unvisited becomes visited (the registry is refreshed entry by
    entry), and the narration activated and named in the guidance
    message is that of the last qualifying entry in registry order. *)
Theorem update_marks_every_qualifying_names_last :
  forall (position : GeolocationPosition) (st : Home) (i : nat) (p : LocationState),
    nth_error (locations st) i = Some p ->
    qualifies position p = true ->
    (forall j q, i < j -> nth_error (locations st) j = Some q ->
                 qualifies position q = false) ->
    let st' := processLocationUpdate position st in
    (forall j q, nth_error (locations st) j = Some q ->
       exists q', nth_error (locations st') j = Some q' /\
                  point_of q' = point_of q /\
                  played q' = played q || qualifies position q) /\
    activeAudio st' = Some (audioSrc (point_of p)) /\
    statusMessage st' = "Playing story for: " ++ name (point_of p).
Proof.
  intros position st i p Hi Hp Hlater st'. split.
  - intros j q Hj. exists (refreshed position q). split.
    + now apply nth_error_refreshed.
    + split; [reflexivity | apply refreshed_played].
  - destruct (nth_error_split _ _ Hi) as (l1 & l2 & Hl & Hlen).
    destruct (processLocationUpdate_trigger position st l1 l2 p Hl Hp)
      as (Ha & Hm & _); [| split; assumption].
    intros q Hin. destruct (In_nth_error _ _ Hin) as [k Hk].
    apply (Hlater (S (i + k))%nat q); [lia |].
    rewrite Hl, <- Hlen.
    replace (S (List.length l1 + k))%nat with (List.length l1 + S k)%nat by lia.
    rewrite nth_error_app2 by lia.
    replace (List.length l1 + S k - List.length l1)%nat with (S k) by lia.
    exact Hk.
Qed.

Lemma update_marks_every_qualifying_names_last_witness :
  let st := startWith twoGates None in
  let st' := processLocationUpdate onTheLine st in
  (forall j q, nth_error (locations st) j = Some q ->
     exists q', nth_error (locations st') j = Some q' /\
                point_of q' = point_of q /\
                played q' = played q || qualifies onTheLine q) /\
  activeAudio st' = Some "/south.m4a" /\
  statusMessage st' = "Playing story for: South gate".
Proof.
  apply (update_marks_every_qualifying_names_last onTheLine
           (startWith twoGates None) 1
           {| point_of := southGate; played := false; distance := Infinity |}).
  - reflexivity.
  - unfold qualifies. rewrite south_distance, gate_within. reflexivity.
  - intros j q Hj Hq. destruct j as [| [| j]]; [lia | lia |].
    simpl in Hq. destruct j; discriminate.
Defined.

(** *** Visited flags *)

Lemma played_persists (fixes : list GeolocationPosition) :
  forall (st : Home) (i : nat) (p : LocationState),
    nth_error (locations st) i = Some p ->
    played p = true ->
    exists p', nth_error (locations (processLocationUpdates fixes st)) i = Some p' /\
               point_of p' = point_of p /\ played p' = true.
Proof.
  induction fixes as [| position fixes IH]; intros st i p Hi Hp.
  - exists p. auto.
  - simpl.
    destruct (IH (processLocationUpdate position st) i (refreshed position p))
      as (p' & Hn & Hpt & Hpl).
    + now apply nth_error_refreshed.
    + rewrite refreshed_played, Hp. reflexivity.
    + exists p'. auto.
Qed.

(** C2.  In an update the flag of a POI goes from false to true
    exactly when the distance computed in that update is at or below
    the trigger radius and the flag was false at the start of the
    call; a flag that is true stays true through every later update,
    whatever the later fixes are. *)
Theorem visited_iff_within_radius_and_never_reverts :
  forall (position : GeolocationPosition) (later : list GeolocationPosition)
         (st : Home) (i : nat) (p : LocationState),
    nth_error (locations st) i = Some p ->
    exists p',
      nth_error (locations (processLocationUpdate position st)) i = Some p' /\
      point_of p' = point_of p /\
      distance p' = distanceTo position p /\
      ((played p = false /\ played p' = true) <->
       (played p = false /\ (distanceTo position p <=? TRIGGER_RADIUS) = true)) /\
      (played p = true -> played p' = true) /\
      (played p' = true ->
       exists p'',
         nth_error
           (locations (processLocationUpdates later
                         (processLocationUpdate position st))) i = Some p'' /\
         point_of p'' = point_of p /\ played p'' = true).
Proof.
  intros position later st i p Hi.
  exists (refreshed position p).
  split; [now apply nth_error_refreshed |].
  split; [reflexivity |]. split; [reflexivity |]. split; [| split].
  - unfold refreshed. simpl.
    destruct (played p); simpl; split; intros [H1 H2]; try discriminate;
      split; assumption.
  - unfold refreshed. simpl. now intros ->.
  - intros Hp.
    apply (played_persists later (processLocationUpdate position st) i
             (refreshed position p)); [now apply nth_error_refreshed | exact Hp].
Qed.

Lemma visited_iff_within_radius_and_never_reverts_witness :
  exists p',
    nth_error (locations (processLocationUpdate onTheLine
                            (startWith twoGates None))) 0 = Some p' /\
    point_of p' = northGate /\
    distance p' =
      distanceTo onTheLine
        {| point_of := northGate; played := false; distance := Infinity |} /\
    ((false = false /\ played p' = true) <->
     (false = false /\
      (distanceTo onTheLine
         {| point_of := northGate; played := false; distance := Infinity |}
       <=? TRIGGER_RADIUS) = true)) /\
    (false = true -> played p' = true) /\
    (played p' = true ->
     exists p'',
       nth_error
         (locations (processLocationUpdates [fixAt (Fin 1) (Fin 0)]
                       (processLocationUpdate onTheLine
                          (startWith twoGates None)))) 0 = Some p'' /\
       point_of p'' = northGate /\ played p'' = true).
Proof.
  apply (visited_iff_within_radius_and_never_reverts onTheLine
           [fixAt (Fin 1) (Fin 0)] (startWith twoGates None) 0
           {| point_of := northGate; played := false; distance := Infinity |}).
  reflexivity.
Defined.

(** *** Fixes with a non-finite coordinate *)

Lemma distanceTo_nonfinite (position : GeolocationPosition) (p : LocationState) :
  isFinite (latitude (coords position)) = false \/
  isFinite (longitude (coords position)) = false ->
  distanceTo position p = NaN.
Proof. intros H. unfold distanceTo. now apply getDistance_nonfinite. Qed.

(** C3, as stated, fails: a fix whose latitude is [NaN] is processed
    like any other, no error is reported, and the distances kept in
    the registry are overwritten. *)
Lemma nan_fix_changes_registry :
  let st := initialState PageA None in
  let st' := processLocationUpdate (fixAt NaN (Fin 0)) st in
  map distance (locations st) = [Infinity; Infinity; Infinity] /\
  map distance (locations st') = [NaN; NaN; NaN] /\
  locations st' <> locations st /\
  error st' = None /\
  statusMessage st' = "Searching for points of interest...".
Proof.
  cbv zeta.
  assert (Hd : map distance
                 (locations (processLocationUpdate (fixAt NaN (Fin 0))
                               (initialState PageA None))) = [NaN; NaN; NaN]).
  { rewrite locations_processLocationUpdate. simpl.
    rewrite !distanceTo_nonfinite by (left; reflexivity). reflexivity. }
  split; [reflexivity |]. split; [exact Hd |]. split.
  - intros Heq. rewrite Heq in Hd. simpl in Hd. discriminate.
  - rewrite processLocationUpdate_quiet.
    + cbv zeta. unfold scanLocations.
      rewrite scan_nearest_keep.
      * split; reflexivity.
      * intros q _. rewrite distanceTo_nonfinite by (left; reflexivity).
        reflexivity.
    + intros q _. unfold qualifies.
      rewrite distanceTo_nonfinite by (left; reflexivity). reflexivity.
Qed.

(** C3, amended.  A fix with a non-finite latitude or longitude is not
    rejected: the update overwrites every stored distance with [NaN],
    records the fix as the current position and sets the guidance to
    the searching fallback; visited flags, the active narration and
    the error cell are left as they were. *)
Theorem nonfinite_fix_overwrites_distances :
  forall (position : GeolocationPosition) (st : Home),
    isFinite (latitude (coords position)) = false \/
    isFinite (longitude (coords position)) = false ->
    processLocationUpdate position st =
    setLocations
      (map (fun p => {| point_of := point_of p; played := played p;
                        distance := NaN |}) (locations st))
      (setStatusMessage "Searching for points of interest..."
         (setCurrentPosition (Some (coords position)) st)).
Proof.
  intros position st H.
  rewrite processLocationUpdate_quiet.
  - cbv zeta. unfold scanLocations. rewrite scan_nearest_keep.
    + simpl. f_equal. apply map_ext. intros p. unfold refreshed.
      rewrite distanceTo_nonfinite by exact H. simpl.
      now rewrite orb_false_r.
    + intros q _. now rewrite distanceTo_nonfinite by exact H.
  - intros q _. unfold qualifies. now rewrite distanceTo_nonfinite by exact H.
Qed.

Lemma nonfinite_fix_overwrites_distances_witness :
  processLocationUpdate (fixAt (Fin 0) Infinity) (startWith twoGates None) =
  setLocations
    (map (fun p => {| point_of := point_of p; played := played p;
                      distance := NaN |})
       (locations (startWith twoGates None)))
    (setStatusMessage "Searching for points of interest..."
       (setCurrentPosition (Some (coords (fixAt (Fin 0) Infinity)))
          (startWith twoGates None))).
Proof.
  apply (nonfinite_fix_overwrites_distances (fixAt (Fin 0) Infinity)
           (startWith twoGates None)).
  right. reflexivity.
Defined.

(** *** Guidance when nothing triggers *)

Lemma getDistance_Fin_or_NaN (lat1 lon1 lat2 lon2 : number) :
  getDistance lat1 lon1 lat2 lon2 = NaN \/
  exists r, getDistance lat1 lon1 lat2 lon2 = Fin r.
Proof.
  unfold getDistance. cbv zeta.
  match goal with
  | |- context [Math_atan2 ?y ?x] => generalize y, x
  end.
  intros y x.
  destruct y, x; simpl; eauto;
    match goal with
    | |- context [Rle_dec ?a ?b] => destruct (Rle_dec a b); simpl; eauto
    end.
Qed.

Lemma ltb_irrefl (a : number) : (a <? a) = false.
Proof. js_cmp. Qed.

Lemma leb_false_ltb_false (a b : number) :
  (a <=? b) = false -> (a <? b) = false.
Proof. intros H. js_cmp. Qed.

(** C5.  When no POI triggers, no narration is activated, no flag
    changes, and the guidance names a POI that no other POI is
    strictly nearer than, visited or not, with its distance rounded to
    the nearest metre; when no POI has a distance below the infinity
    sentinel the guidance is the searching fallback. *)
Theorem no_trigger_guidance_names_nearest :
  forall (position : GeolocationPosition) (st : Home),
    (forall q, In q (locations st) -> qualifies position q = false) ->
    let st' := processLocationUpdate position st in
    activeAudio st' = activeAudio st /\
    error st' = error st /\
    map played (locations st') = map played (locations st) /\
    ((exists i p a z,
        nth_error (locations st) i = Some p /\
        distanceTo position p = Fin a /\
        (forall q, In q (locations st) ->
           (distanceTo position q <? distanceTo position p) = false) /\
        (a - / 2 < IZR z <= a + / 2)%R /\
        statusMessage st' =
          "Walk towards " ++ name (point_of p) ++ " (" ++
          NilZero.string_of_int (Z.to_int z) ++ "m away)")
     \/
     ((forall q, In q (locations st) ->
         (distanceTo position q <? Infinity) = false) /\
      statusMessage st' = "Searching for points of interest...")).
Proof.
  intros position st Hq st'. subst st'.
  rewrite (processLocationUpdate_quiet position st Hq). cbv zeta.
  split; [reflexivity |]. split; [reflexivity |]. split.
  { simpl. rewrite map_map. apply map_ext_in. intros p Hin.
    rewrite refreshed_played, (Hq p Hin). apply orb_false_r. }
  unfold scanLocations.
  destruct (scan_nearest position
              (locations (setCurrentPosition (Some (coords position)) st))
              {| nearestPoint := Sentinel Infinity; didTriggerAudio := false;
                 cells := setCurrentPosition (Some (coords position)) st |})
    as [[Hn Hall] | (l1 & p & l2 & Hl & Hn & Hp & H1 & H2)].
  - right. rewrite Hn. simpl in *. split; [exact Hall | reflexivity].
  - left. rewrite Hn. simpl in Hl, Hp |- *.
    destruct (getDistance_Fin_or_NaN (latitude (coords position))
                (longitude (coords position))
                (lat (point_of p)) (lon (point_of p))) as [HN | [a Ha]];
      fold (distanceTo position p) in *.
    { rewrite HN in Hp. discriminate. }
    exists (List.length l1), p, a, (Int_part (a + / 2)).
    split; [rewrite Hl; rewrite nth_error_app2 by lia;
            now rewrite Nat.sub_diag |].
    split; [exact Ha |]. split; [| split].
    + intros q Hin. rewrite Hl in Hin. apply in_app_or in Hin.
      destruct Hin as [Hin | [Heq | Hin]].
      * apply leb_false_ltb_false. now apply H1.
      * subst q. apply ltb_irrefl.
      * now apply H2.
    + apply Math_round_nearest.
    + rewrite (ltb_Infinity_strict_eq _ _ Hp).
      unfold walkTowards. simpl nearest_name. simpl nearest_distance.
      rewrite Ha, toString_round. reflexivity.
Qed.

Lemma gates_quiet (q : LocationState) :
  In q (locations gatesVisited) -> qualifies onTheLine q = false.
Proof.
  rewrite gatesVisited_locations.
  intros [<- | [<- | []]]; unfold qualifies; simpl; apply andb_false_r.
Qed.

Lemma no_trigger_guidance_names_nearest_witness :
  let st' := processLocationUpdate onTheLine gatesVisited in
  activeAudio st' = activeAudio gatesVisited /\
  error st' = error gatesVisited /\
  map played (locations st') = map played (locations gatesVisited) /\
  ((exists i p a z,
      nth_error (locations gatesVisited) i = Some p /\
      distanceTo onTheLine p = Fin a /\
      (forall q, In q (locations gatesVisited) ->
         (distanceTo onTheLine q <? distanceTo onTheLine p) = false) /\
      (a - / 2 < IZR z <= a + / 2)%R /\
      statusMessage st' =
        "Walk towards " ++ name (point_of p) ++ " (" ++
        NilZero.string_of_int (Z.to_int z) ++ "m away)")
   \/
   ((forall q, In q (locations gatesVisited) ->
       (distanceTo onTheLine q <? Infinity) = false) /\
    statusMessage st' = "Searching for points of interest...")).
Proof.
  apply (no_trigger_guidance_names_nearest onTheLine gatesVisited).
  exact gates_quiet.
Defined.

(** The guidance after a quiet update, given where the first entry at
    the least distance sits in the registry. *)
Lemma walk_message_first_minimum (position : GeolocationPosition) (st : Home)
    (l1 l2 : list LocationState) (p : LocationState) :
  locations st = (l1 ++ p :: l2)%list ->
  (forall q, In q (locations st) -> qualifies position q = false) ->
  (distanceTo position p <? Infinity) = true ->
  (forall q, In q l1 ->
     (distanceTo position q <=? distanceTo position p) = false) ->
  (forall q, In q l2 ->
     (distanceTo position q <? distanceTo position p) = false) ->
  statusMessage (processLocationUpdate position st) =
    "Walk towards " ++ name (point_of p) ++ " (" ++
    toString (Math_round (distanceTo position p)) ++ "m away)".
Proof.
  intros Hl Hq Hp H1 H2.
  rewrite (processLocationUpdate_quiet position st Hq). cbv zeta.
  unfold scanLocations.
  replace (locations (setCurrentPosition (Some (coords position)) st))
    with (l1 ++ p :: l2)%list by (symmetry; exact Hl).
  rewrite scan_nearest_first by assumption.
  simpl. rewrite (ltb_Infinity_strict_eq _ _ Hp). reflexivity.
Qed.

(** C10.  In an update where nothing triggers, if the POI at index
    [i] is at the least distance and no POI before it in the registry
    is at that same distance, the guidance names the POI at index [i]:
    among POIs tied for the least distance the earliest wins. *)
Theorem nearest_tie_goes_to_earliest :
  forall (position : GeolocationPosition) (st : Home) (i : nat) (p : LocationState),
    (forall q, In q (locations st) -> qualifies position q = false) ->
    nth_error (locations st) i = Some p ->
    (distanceTo position p <? Infinity) = true ->
    (forall q, In q (locations st) ->
       (distanceTo position q <? distanceTo position p) = false) ->
    (forall j q, j < i -> nth_error (locations st) j = Some q ->
       (distanceTo position q === distanceTo position p) = false) ->
    statusMessage (processLocationUpdate position st) =
      "Walk towards " ++ name (point_of p) ++ " (" ++
      toString (Math_round (distanceTo position p)) ++ "m away)".
Proof.
  intros position st i p Hq Hi Hp Hmin Hfirst.
  destruct (nth_error_split _ _ Hi) as (l1 & l2 & Hl & Hlen).
  apply (walk_message_first_minimum position st l1 l2 p Hl Hq Hp).
  - intros q Hin. rewrite leb_ltb_eq.
    rewrite Hmin by (rewrite Hl; apply in_or_app; now left).
    destruct (In_nth_error _ _ Hin) as [k Hk].
    assert (Hklt : k < List.length l1)
      by (apply nth_error_Some; rewrite Hk; discriminate).
    simpl. apply (Hfirst k q); [lia |].
    rewrite Hl, nth_error_app1 by exact Hklt. exact Hk.
  - intros q Hin. apply Hmin. rewrite Hl. apply in_or_app. right. now right.
Qed.

Lemma nearest_tie_goes_to_earliest_witness :
  distanceTo onTheLine
    {| point_of := southGate; played := true; distance := gateDistance |} =
  distanceTo onTheLine
    {| point_of := northGate; played := true; distance := gateDistance |} /\
  statusMessage (processLocationUpdate onTheLine gatesVisited) =
    "Walk towards North gate (" ++
    toString (Math_round
                (distanceTo onTheLine
                   {| point_of := northGate; played := true;
                      distance := gateDistance |})) ++ "m away)".
Proof.
  split; [now rewrite north_distance, south_distance |].
  apply (nearest_tie_goes_to_earliest onTheLine gatesVisited 0
           {| point_of := northGate; played := true; distance := gateDistance |}).
  - exact gates_quiet.
  - rewrite gatesVisited_locations. reflexivity.
  - rewrite north_distance. reflexivity.
  - rewrite gatesVisited_locations. intros q [<- | [<- | []]];
      rewrite ?north_distance, ?south_distance; apply ltb_irrefl.
  - intros j q Hj. lia.
Defined.

(* ================================================================= *)
(** * Around the engine: cells an update leaves alone *)

Lemma processLocationUpdate_frame (position : GeolocationPosition) (st : Home) :
  let st' := processLocationUpdate position st in
  currentPosition st' = Some (coords position) /\
  isWatching st' = isWatching st /\
  showAR st' = showAR st /\
  audioRef st' = audioRef st /\
  watchIdRef st' = watchIdRef st.
Proof.
  cbv zeta. rewrite processLocationUpdate_eq. cbv zeta. unfold scanLocations.
  pose proof (scan_frame position
                (locations (setCurrentPosition (Some (coords position)) st))
                {| nearestPoint := Sentinel Infinity; didTriggerAudio := false;
                   cells := setCurrentPosition (Some (coords position)) st |})
    as H.
  cbv zeta in H. destruct (fst (map_scan _ _ _)) as [n b c].
  simpl in H. destruct H as (_ & H2 & H3 & H4 & H5 & H6).
  destruct b; simpl; try destruct (nearest_distance n === Infinity); simpl;
    repeat split; assumption.
Qed.

(** The last entry that satisfies a test. *)
Lemma last_such {A : Type} (f : A -> bool) (l : list A) :
  (exists x, In x l /\ f x = true) ->
  exists l1 x l2,
    l = (l1 ++ x :: l2)%list /\ f x = true /\
    forall y, In y l2 -> f y = false.
Proof.
  induction l as [| a l IH]; intros (x & Hin & Hx).
  - destruct Hin.
  - destruct (existsb f l) eqn:He.
    + apply existsb_exists in He.
      destruct (IH He) as (l1 & y & l2 & Hl & Hy & Hrest).
      exists (a :: l1), y, l2. rewrite Hl. auto.
    + assert (Hall : forall y, In y l -> f y = false).
      { intros y Hy. destruct (f y) eqn:Hfy; [| reflexivity].
        assert (existsb f l = true) by (apply existsb_exists; eauto).
        congruence. }
      destruct Hin as [-> | Hin].
      * exists [], x, l. auto.
      * rewrite (Hall x Hin) in Hx. discriminate.
Qed.

(** After a trigger the active narration is the one of a registry
    entry, and the error cell is clear. *)
Lemma trigger_activates_registry_audio (position : GeolocationPosition)
    (st : Home) (p : LocationState) :
  In p (locations st) ->
  qualifies position p = true ->
  exists q, In q (locations st) /\
            activeAudio (processLocationUpdate position st) =
              Some (audioSrc (point_of q)) /\
            error (processLocationUpdate position st) = None.
Proof.
  intros Hin Hp.
  destruct (last_such (qualifies position) (locations st))
    as (l1 & q & l2 & Hl & Hq & Hrest); [eauto |].
  destruct (processLocationUpdate_trigger position st l1 l2 q Hl Hq Hrest)
    as (Ha & _ & He).
  exists q. split; [| split; assumption].
  rewrite Hl. apply in_elt.
Qed.

(** ** Distances in the shipped catalog *)

Lemma far_by_latitude (lat1 lon1 lat2 lon2 : R) :
  (Rabs lat1 <= 90)%R -> (Rabs lat2 <= 90)%R ->
  (30 < 6371000 * (Rabs (lat2 - lat1) * 3 / 180))%R ->
  (getDistance (Fin lat1) (Fin lon1) (Fin lat2) (Fin lon2) <=? TRIGGER_RADIUS)
  = false.
Proof.
  intros H1 H2 H3.
  destruct (getDistance_lower lat1 lon1 lat2 lon2 H1 H2) as (d & -> & Hd).
  apply leb_Fin_false.
  pose proof PI_gt_3 as Hpi. pose proof (Rabs_pos (lat2 - lat1)) as Ha.
  assert (Rabs (lat2 - lat1) * 3 <= Rabs (lat2 - lat1) * PI)%R
    by (apply Rmult_le_compat_l; lra).
  lra.
Qed.

Ltac latitudes :=
  first [ rewrite Rabs_pos_eq by lra | rewrite Rabs_left by lra ]; lra.

Lemma at_poi (p : PointOfInterest) (a b : R) :
  lat p = Fin a -> lon p = Fin b ->
  forall (v : bool) (d : number),
    distanceTo (fixOn p) {| point_of := p; played := v; distance := d |} = Fin 0.
Proof.
  intros Ha Hb v d. unfold distanceTo, fixOn, fixAt. simpl.
  rewrite Ha, Hb. apply getDistance_same.
Qed.

Lemma within_zero : (Fin 0 <=? TRIGGER_RADIUS) = true.
Proof. apply leb_Fin. lra. Qed.

Lemma poi1_poi2_far (v : bool) (d : number) :
  qualifies (fixOn poi1) {| point_of := poi2; played := v; distance := d |}
  = false.
Proof.
  unfold qualifies, distanceTo. simpl.
  rewrite far_by_latitude by latitudes. reflexivity.
Qed.

Lemma poi1_poi3_far (v : bool) (d : number) :
  qualifies (fixOn poi1) {| point_of := poi3; played := v; distance := d |}
  = false.
Proof.
  unfold qualifies, distanceTo. simpl.
  rewrite far_by_latitude by latitudes. reflexivity.
Qed.

Lemma poi2_poi1_far (v : bool) (d : number) :
  qualifies (fixOn poi2) {| point_of := poi1; played := v; distance := d |}
  = false.
Proof.
  unfold qualifies, distanceTo. simpl.
  rewrite far_by_latitude by latitudes. reflexivity.
Qed.

Lemma poi2_poi3_far (v : bool) (d : number) :
  qualifies (fixOn poi2) {| point_of := poi3; played := v; distance := d |}
  = false.
Proof.
  unfold qualifies, distanceTo. simpl.
  rewrite far_by_latitude by latitudes. reflexivity.
Qed.

Lemma at_poi_qualifies (p : PointOfInterest) (a b : R) :
  lat p = Fin a -> lon p = Fin b ->
  forall d : number,
    qualifies (fixOn p) {| point_of := p; played := false; distance := d |}
    = true.
Proof.
  intros Ha Hb d. unfold qualifies.
  rewrite (at_poi p a b Ha Hb), within_zero. reflexivity.
Qed.

(* ================================================================= *)
(** * Playback activation *)

Lemma playRejected_cells (d : Draft) (active : string) (st : Home) :
  error (playRejected d active st) = Some (autoplayNotice d) /\
  locations (playRejected d active st) = locations st /\
  activeAudio (playRejected d active st) = activeAudio st /\
  audioRef (playRejected d active st) = audioRef st.
Proof.
  unfold playRejected.
  destruct d; try destruct (find _ _); repeat split; reflexivity.
Qed.

Lemma effect_rejected (d : Draft) (st : Home) (active : string)
    (audio : HTMLAudioElement) :
  activeAudio st = Some active -> active <> "" -> audioRef st = Some audio ->
  audioPlaybackEffect d Rejected st =
  playRejected d active
    (setAudioRef
       (Some {| src := active;
                muted := match d with
                         | PageA => muted audio
                         | PageB | Early => false
                         end |}) st).
Proof.
  intros Ha Hne Hr. unfold audioPlaybackEffect. rewrite Ha, Hr.
  apply String.eqb_neq in Hne. rewrite Hne. reflexivity.
Qed.

(** C6.  When the playback attempt that follows a trigger is rejected,
    the error cell holds the autoplay notice asking for a manual play,
    the POI that triggered is still visited (the registry is the one
    the update committed), and the activated narration stays loaded in
    the audio element. *)
Theorem rejected_playback_keeps_visited_and_narration :
  forall (d : Draft) (position : GeolocationPosition) (st : Home)
         (audio : HTMLAudioElement) (i : nat) (p : LocationState),
    audioRef st = Some audio ->
    (forall q, In q (locations st) -> audioSrc (point_of q) <> "") ->
    nth_error (locations st) i = Some p ->
    qualifies position p = true ->
    let st1 := processLocationUpdate position st in
    let st2 := audioPlaybackEffect d Rejected st1 in
    error st2 = Some (autoplayNotice d) /\
    (exists p', nth_error (locations st2) i = Some p' /\
                point_of p' = point_of p /\ played p' = true) /\
    locations st2 = locations st1 /\
    (exists active,
        activeAudio st1 = Some active /\
        activeAudio st2 = Some active /\
        option_map src (audioRef st2) = Some active).
Proof.
  intros d position st audio i p Hr Hsrc Hi Hp st1 st2.
  destruct (trigger_activates_registry_audio position st p
              (nth_error_In _ _ Hi) Hp) as (q & Hq & Ha & _).
  fold st1 in Ha.
  assert (Hr1 : audioRef st1 = Some audio).
  { destruct (processLocationUpdate_frame position st) as (_ & _ & _ & H & _).
    fold st1 in H. now rewrite H. }
  assert (Hst2 : st2 = playRejected d (audioSrc (point_of q))
                         (setAudioRef
                            (Some {| src := audioSrc (point_of q);
                                     muted := match d with
                                              | PageA => muted audio
                                              | PageB | Early => false
                                              end |}) st1)).
  { apply effect_rejected; auto. }
  destruct (playRejected_cells d (audioSrc (point_of q))
              (setAudioRef
                 (Some {| src := audioSrc (point_of q);
                          muted := match d with
                                   | PageA => muted audio
                                   | PageB | Early => false
                                   end |}) st1))
    as (He & Hl & Hact & Href).
  rewrite <- Hst2 in He, Hl, Hact, Href. simpl in Hl, Hact, Href.
  split; [exact He |]. split; [| split; [exact Hl |]].
  - exists (refreshed position p). rewrite Hl. split.
    + now apply nth_error_refreshed.
    + split; [reflexivity |]. rewrite refreshed_played, Hp.
      apply orb_true_r.
  - exists (audioSrc (point_of q)). split; [exact Ha |].
    split; [now rewrite Hact |]. now rewrite Href.
Qed.

Lemma rejected_playback_keeps_visited_and_narration_witness :
  let st1 := processLocationUpdate (fixOn poi1) (initialState PageB (Some speaker)) in
  let st2 := audioPlaybackEffect PageB Rejected st1 in
  error st2 = Some (autoplayNotice PageB) /\
  (exists p', nth_error (locations st2) 0 = Some p' /\
              point_of p' = poi1 /\ played p' = true) /\
  locations st2 = locations st1 /\
  (exists active,
      activeAudio st1 = Some active /\
      activeAudio st2 = Some active /\
      option_map src (audioRef st2) = Some active).
Proof.
  apply (rejected_playback_keeps_visited_and_narration PageB (fixOn poi1)
           (initialState PageB (Some speaker)) speaker 0
           {| point_of := poi1; played := false; distance := Infinity |}).
  - reflexivity.
  - simpl. intros q [<- | [<- | []]]; discriminate.
  - reflexivity.
  - unfold qualifies.
    rewrite (at_poi poi1 _ _ eq_refl eq_refl), within_zero. reflexivity.
Defined.

(* ================================================================= *)
(** * Errors of the position source *)

Lemma same_audio_refl (a : option string) : same_audio a a = true.
Proof. destruct a; simpl; [apply String.eqb_refl | reflexivity]. Qed.

(** C7, as stated, fails: a refusal delivered for the initial fix is
    shown with the permission-denied wording, not as a location
    error. *)
Lemma initial_error_is_worded_permission_denied :
  error (step PageA (InitialError denied) Fulfilled (initialState PageA None)) =
    Some "Permission Denied: User denied Geolocation. Please enable location services." /\
  error (step PageA (InitialError denied) Fulfilled (initialState PageA None)) <>
    Some ("Location Error: " ++ message denied).
Proof. split; [reflexivity | discriminate]. Qed.

(** C7, amended.  An error delivered by the position watch is shown
    as "Location Error: <message>", an error delivered for the initial
    fix as "Permission Denied: <message>. Please enable location
    services."; either way only the error cell changes, so every
    visited flag and stored distance is as before. *)
Theorem source_errors_only_set_the_error_cell :
  forall (d : Draft) (err : GeolocationPositionError) (outcome : PlayResult)
         (st : Home),
    step d (WatchError err) outcome st =
      setError (Some ("Location Error: " ++ message err)) st /\
    step d (InitialError err) outcome st =
      setError (Some ("Permission Denied: " ++ message err ++
                      ". Please enable location services.")) st /\
    locations (step d (WatchError err) outcome st) = locations st /\
    locations (step d (InitialError err) outcome st) = locations st.
Proof.
  intros d err outcome st. unfold step, commit. simpl.
  rewrite same_audio_refl. repeat split; reflexivity.
Qed.

(* ================================================================= *)
(** * A page without an audio element *)

Lemma effect_without_sink (d : Draft) (outcome : PlayResult) (st : Home) :
  audioRef st = None -> audioPlaybackEffect d outcome st = st.
Proof.
  intros H. unfold audioPlaybackEffect. rewrite H.
  now destruct (activeAudio st).
Qed.

Lemma handle_keeps_no_sink (d : Draft) (e : Event) (st : Home) :
  audioRef st = None -> audioRef (handle d e st) = None.
Proof.
  intros H. destruct e; simpl; try assumption.
  - unfold handleStartTour. destruct geolocation; simpl; [| assumption].
    rewrite H. assumption.
  - unfold onInitialPosition. simpl.
    destruct (processLocationUpdate_frame position
                (setStatusMessage "Location activated. Walking tour started."
                   (setError None (setIsWatching true st))))
      as (_ & _ & _ & Hr & _).
    rewrite Hr. exact H.
  - destruct (processLocationUpdate_frame position st) as (_ & _ & _ & Hr & _).
    now rewrite Hr.
Qed.

Lemma step_without_sink (d : Draft) (e : Event) (outcome : PlayResult) (st : Home) :
  audioRef st = None -> step d e outcome st = handle d e st.
Proof.
  intros H. unfold step, commit.
  destruct (same_audio _ _); [reflexivity |].
  apply effect_without_sink. now apply handle_keeps_no_sink.
Qed.

(** The scan does not look at the audio element. *)
Lemma visit_sink_indep (position : GeolocationPosition)
    (sink : option HTMLAudioElement) (n : Nearest) (b : bool) (c : Home)
    (p : LocationState) :
  visit (latitude (coords position)) (longitude (coords position))
    {| nearestPoint := n; didTriggerAudio := b; cells := setAudioRef sink c |} p =
  (let r := visit (latitude (coords position)) (longitude (coords position))
              {| nearestPoint := n; didTriggerAudio := b; cells := c |} p in
   ({| nearestPoint := nearestPoint (fst r);
       didTriggerAudio := didTriggerAudio (fst r);
       cells := setAudioRef sink (cells (fst r)) |}, snd r)).
Proof. unfold visit. simpl. destruct (_ && _); reflexivity. Qed.

Lemma scan_sink_indep (position : GeolocationPosition)
    (sink : option HTMLAudioElement) (l : list LocationState) :
  forall (n : Nearest) (b : bool) (c : Home),
    map_scan (visit (latitude (coords position)) (longitude (coords position)))
      {| nearestPoint := n; didTriggerAudio := b; cells := setAudioRef sink c |} l =
    (let r := map_scan (visit (latitude (coords position))
                          (longitude (coords position)))
                {| nearestPoint := n; didTriggerAudio := b; cells := c |} l in
     ({| nearestPoint := nearestPoint (fst r);
         didTriggerAudio := didTriggerAudio (fst r);
         cells := setAudioRef sink (cells (fst r)) |}, snd r)).
Proof.
  induction l as [| p l IH]; intros n b c.
  - reflexivity.
  - cbv zeta. rewrite !map_scan_cons, visit_sink_indep. cbv zeta.
    destruct (visit _ _ {| nearestPoint := n; didTriggerAudio := b; cells := c |} p)
      as [[n1 b1 c1] y].
    cbn [fst snd nearestPoint didTriggerAudio cells].
    rewrite IH. reflexivity.
Qed.

Lemma processLocationUpdate_sink_indep (position : GeolocationPosition)
    (sink : option HTMLAudioElement) (st : Home) :
  processLocationUpdate position (setAudioRef sink st) =
  setAudioRef sink (processLocationUpdate position st).
Proof.
  unfold processLocationUpdate. cbv zeta. unfold scanLocations.
  change (setCurrentPosition
            (Some {| latitude := latitude (coords position);
                     longitude := longitude (coords position) |})
            (setAudioRef sink st))
    with (setAudioRef sink
            (setCurrentPosition
               (Some {| latitude := latitude (coords position);
                        longitude := longitude (coords position) |}) st)).
  rewrite scan_sink_indep. cbv zeta.
  change (locations
            (setAudioRef sink
               (setCurrentPosition
                  (Some {| latitude := latitude (coords position);
                           longitude := longitude (coords position) |}) st)))
    with (locations
            (setCurrentPosition
               (Some {| latitude := latitude (coords position);
                        longitude := longitude (coords position) |}) st)).
  destruct (map_scan _ _ _) as [[n b c] upd]. simpl.
  destruct b; simpl; [reflexivity |].
  destruct (nearest_distance n === Infinity); reflexivity.
Qed.

Lemma handle_sink_indep (d : Draft) (e : Event)
    (sink : option HTMLAudioElement) (st : Home) :
  locations (handle d e (setAudioRef sink st)) = locations (handle d e st) /\
  statusMessage (handle d e (setAudioRef sink st)) = statusMessage (handle d e st) /\
  error (handle d e (setAudioRef sink st)) = error (handle d e st).
Proof.
  destruct e; simpl; try (repeat split; reflexivity).
  - unfold handleStartTour. destruct geolocation; simpl;
      [| repeat split; reflexivity].
    destruct sink, (audioRef st); repeat split; reflexivity.
  - unfold onInitialPosition.
    change (setStatusMessage "Location activated. Walking tour started."
              (setError None (setIsWatching true (setAudioRef sink st))))
      with (setAudioRef sink
              (setStatusMessage "Location activated. Walking tour started."
                 (setError None (setIsWatching true st)))).
    rewrite processLocationUpdate_sink_indep. repeat split; reflexivity.
  - rewrite processLocationUpdate_sink_indep. repeat split; reflexivity.
Qed.

(** C8, as stated, fails: a trigger on a page without an audio
    element reports no error at all. *)
Lemma trigger_without_sink_reports_nothing :
  let st' := step PageA (WatchPosition (fixOn poi1)) Rejected
               (initialState PageA None) in
  map played (locations st') = [true; false; false] /\
  activeAudio st' = Some "/oldcabin.m4a" /\
  statusMessage st' = "Playing story for: The Old Adams Cabin Site" /\
  error st' = None.
Proof.
  cbv zeta. rewrite step_without_sink by reflexivity. simpl handle.
  assert (Hq1 : qualifies (fixOn poi1)
                  {| point_of := poi1; played := false; distance := Infinity |}
                = true).
  { unfold qualifies.
    rewrite (at_poi poi1 _ _ eq_refl eq_refl), within_zero. reflexivity. }
  assert (Hq2 : qualifies (fixOn poi1)
                  {| point_of := poi2; played := false; distance := Infinity |}
                = false) by apply poi1_poi2_far.
  assert (Hq3 : qualifies (fixOn poi1)
                  {| point_of := poi3; played := false; distance := Infinity |}
                = false) by apply poi1_poi3_far.
  split.
  - rewrite locations_processLocationUpdate, map_map.
    unfold initialState, startWith. cbn [locations map pointsOfInterest].
    rewrite !refreshed_played, Hq1, Hq2, Hq3. reflexivity.
  - destruct (processLocationUpdate_trigger (fixOn poi1) (initialState PageA None)
                []
                [ {| point_of := poi2; played := false; distance := Infinity |};
                  {| point_of := poi3; played := false; distance := Infinity |} ]
                {| point_of := poi1; played := false; distance := Infinity |})
      as (Ha & Hm & He); [reflexivity | exact Hq1 | | auto].
    intros q [<- | [<- | []]]; assumption.
Qed.


(* ================================================================= *)
(** * The AR launch button *)

(** C9, as stated, fails on the first draft of the page: after a fix
    at the second POI only that POI is visited, and its card offers
    the AR experience although POI 1 is unvisited. *)
Lemma ar_offered_while_poi1_unvisited :
  let st := processLocationUpdate (fixOn poi2) (initialState PageA None) in
  map (fun p => (id (point_of p), played p)) (locations st) =
    [(1%Z, false); (2%Z, true); (3%Z, false)] /\
  arOffered PageA st = true.
Proof.
  cbv zeta.
  assert (Hl : map played
                 (locations (processLocationUpdate (fixOn poi2)
                               (initialState PageA None))) = [false; true; false]).
  { rewrite locations_processLocationUpdate, map_map.
    unfold initialState, startWith. cbn [locations map pointsOfInterest].
    rewrite !refreshed_played.
    rewrite (at_poi_qualifies poi2 _ _ eq_refl eq_refl).
    now rewrite poi2_poi1_far, poi2_poi3_far. }
  unfold arOffered, arButton.
  rewrite locations_processLocationUpdate in *. simpl in *.
  injection Hl as H1 H2 H3. rewrite H1, H2, H3. split; reflexivity.
Qed.

(** C9, amended.  In the second draft the AR launch is offered exactly
    when the POI with id 1 is visited and the AR view is not already
    open; in the first draft it is offered as soon as any POI is
    visited; the earlier draft never offers it. *)
Theorem ar_offer_by_draft :
  forall st : Home,
    (arOffered PageB st = true <->
     showAR st = false /\
     exists p, In p (locations st) /\ id (point_of p) = 1%Z /\ played p = true) /\
    (arOffered PageA st = true <->
     exists p, In p (locations st) /\ played p = true) /\
    arOffered Early st = false.
Proof.
  intros st. unfold arOffered. split; [| split].
  - rewrite existsb_exists. split.
    + intros (p & Hin & Hb). simpl in Hb.
      apply andb_prop in Hb. destruct Hb as [Hb Hs].
      apply andb_prop in Hb. destruct Hb as [Hid Hp].
      split; [now apply negb_true_iff in Hs |].
      exists p. split; [exact Hin |]. split; [now apply Z.eqb_eq | exact Hp].
    + intros (Hs & p & Hin & Hid & Hp). exists p. split; [exact Hin |].
      simpl. rewrite Hp, Hs. apply Z.eqb_eq in Hid. rewrite Hid. reflexivity.
  - rewrite existsb_exists. simpl. tauto.
  - induction (locations st) as [| p l IH]; simpl; [reflexivity | exact IH].
Qed.

(* ================================================================= *)
(** * Two walks through the shipped catalog *)

Lemma beyond_radius_not_negative (a : number) :
  (a <=? TRIGGER_RADIUS) = false -> (a <? Fin 0) = false.
Proof. unfold TRIGGER_RADIUS. intros H. js_cmp. Qed.

Lemma round_zero : toString (Math_round (Fin 0)) = "0".
Proof.
  rewrite toString_round.
  replace (Int_part (0 + / 2)) with 0%Z; [reflexivity |].
  apply Int_part_spec. simpl. lra.
Qed.

(** The first fix of a tour, taken at the cabin site: the cabin's
    story starts and only the cabin is visited. *)
Example first_fix_at_the_cabin :
  let st := step Early (InitialPosition (fixOn poi1) 7) Fulfilled
              (initialState Early (Some speaker)) in
  statusMessage st = "Playing story for: The Old Adams Cabin Site" /\
  map played (locations st) = [true; false] /\
  map (fun p => distance p === Fin 0) (locations st) = [true; false] /\
  activeAudio st = Some "/oldcabin.m4a" /\
  option_map src (audioRef st) = Some "/oldcabin.m4a" /\
  isWatching st = true /\ watchIdRef st = Some 7 /\ error st = None.
Proof.
  cbv zeta. unfold step, handle, onInitialPosition.
  set (st0 := setStatusMessage "Location activated. Walking tour started."
                (setError None
                   (setIsWatching true (initialState Early (Some speaker))))).
  assert (Hq1 : qualifies (fixOn poi1)
                  {| point_of := poi1; played := false; distance := Infinity |}
                = true) by apply (at_poi_qualifies poi1 _ _ eq_refl eq_refl).
  assert (Hq2 : qualifies (fixOn poi1)
                  {| point_of := poi2; played := false; distance := Infinity |}
                = false) by apply poi1_poi2_far.
  destruct (processLocationUpdate_trigger (fixOn poi1) st0 []
              [ {| point_of := poi2; played := false; distance := Infinity |} ]
              {| point_of := poi1; played := false; distance := Infinity |})
    as (Ha & Hm & He); [reflexivity | exact Hq1 | |].
  { intros q [<- | []]. exact Hq2. }
  destruct (processLocationUpdate_frame (fixOn poi1) st0)
    as (_ & Hw & _ & Hr & _).
  assert (Hl : locations (processLocationUpdate (fixOn poi1) st0) =
               [ {| point_of := poi1; played := true; distance := Fin 0 |};
                 {| point_of := poi2; played := false;
                    distance := distanceTo (fixOn poi1)
                                  {| point_of := poi2; played := false;
                                     distance := Infinity |} |} ]).
  { rewrite locations_processLocationUpdate.
    unfold st0, initialState, startWith.
    cbn [locations map pointsOfInterest setStatusMessage setError setIsWatching].
    unfold refreshed. cbn [point_of played].
    unfold qualifies in Hq2. cbn [played negb] in Hq2.
    rewrite andb_true_r in Hq2. rewrite Hq2.
    rewrite (at_poi poi1 _ _ eq_refl eq_refl), within_zero. reflexivity. }
  set (st1 := processLocationUpdate (fixOn poi1) st0) in *. clearbody st1.
  simpl in Ha, Hm, Hr, Hw.
  unfold commit, audioPlaybackEffect. simpl. rewrite Ha, Hr. simpl.
  rewrite Hm, Hl, Ha, Hw, He.
  repeat split; try reflexivity.
  cbn [map distance]. unfold qualifies in Hq2. cbn [played negb] in Hq2.
  rewrite andb_true_r in Hq2.
  f_equal; [unfold strict_eq; destruct (Req_dec_T 0 0); [reflexivity | lra] |].
  f_equal.
  destruct (distanceTo (fixOn poi1)
              {| point_of := poi2; played := false; distance := Infinity |})
    as [| | r |]; try reflexivity.
  unfold TRIGGER_RADIUS in Hq2. apply leb_Fin_false in Hq2.
  unfold strict_eq. destruct (Req_dec_T r 0); [lra | reflexivity].
Qed.

(** A second fix at the cabin, now visited: nothing triggers and the
    guidance points back at the cabin itself, zero metres away. *)
Example second_fix_at_the_cabin :
  let st1 := processLocationUpdate (fixOn poi1) (initialState Early None) in
  let st2 := processLocationUpdate (fixOn poi1) st1 in
  statusMessage st2 = "Walk towards The Old Adams Cabin Site (0m away)" /\
  map played (locations st2) = [true; false] /\
  activeAudio st2 = activeAudio st1.
Proof.
  cbv zeta.
  set (st1 := processLocationUpdate (fixOn poi1) (initialState Early None)).
  set (d2 := distanceTo (fixOn poi1)
               {| point_of := poi2; played := false; distance := Infinity |}).
  assert (Hfar : (d2 <=? TRIGGER_RADIUS) = false).
  { pose proof (poi1_poi2_far false Infinity) as H. unfold qualifies in H.
    cbn [played negb] in H. now rewrite andb_true_r in H. }
  assert (Hl : locations st1 =
               [ {| point_of := poi1; played := true; distance := Fin 0 |};
                 {| point_of := poi2; played := false; distance := d2 |} ]).
  { unfold st1. rewrite locations_processLocationUpdate.
    unfold initialState, startWith. cbn [locations map pointsOfInterest].
    unfold refreshed. cbn [point_of played]. fold d2. rewrite Hfar.
    rewrite (at_poi poi1 _ _ eq_refl eq_refl), within_zero. reflexivity. }
  assert (Hq : forall q, In q (locations st1) -> qualifies (fixOn poi1) q = false).
  { rewrite Hl. intros q [<- | [<- | []]].
    - unfold qualifies. apply andb_false_r.
    - apply poi1_poi2_far. }
  split; [| split].
  - rewrite (walk_message_first_minimum (fixOn poi1) st1 []
               [ {| point_of := poi2; played := false; distance := d2 |} ]
               {| point_of := poi1; played := true; distance := Fin 0 |}
               Hl Hq).
    + rewrite (at_poi poi1 _ _ eq_refl eq_refl), round_zero. reflexivity.
    + rewrite (at_poi poi1 _ _ eq_refl eq_refl). reflexivity.
    + intros q [].
    + intros q [<- | []]. rewrite (at_poi poi1 _ _ eq_refl eq_refl).
      apply beyond_radius_not_negative.
      pose proof (poi1_poi2_far false d2) as H. unfold qualifies in H.
      cbn [played negb] in H. now rewrite andb_true_r in H.
  - rewrite locations_processLocationUpdate, Hl, map_map. cbn [map].
    rewrite !refreshed_played. cbn [played].
    now rewrite (poi1_poi2_far false d2).
  - rewrite (processLocationUpdate_quiet (fixOn poi1) st1 Hq). reflexivity.
Qed.

(* ================================================================= *)
(** * Two facts beyond single updates *)

Lemma effect_keeps_locations (d : Draft) (outcome : PlayResult) (st : Home) :
  locations (audioPlaybackEffect d outcome st) = locations st.
Proof.
  unfold audioPlaybackEffect.
  destruct (activeAudio st) as [active |]; [| reflexivity].
  destruct (audioRef st) as [audio |]; [| reflexivity].
  destruct (active =? "")%string; [reflexivity |].
  destruct outcome; try reflexivity.
  now destruct (playRejected_cells d active
                  (setAudioRef
                     (Some {| src := active;
                              muted := match d with
                                       | PageA => muted audio
                                       | PageB | Early => false
                                       end |}) st)) as (_ & -> & _).
Qed.

(** Whatever the host delivers, a visited POI stays visited. *)
Lemma step_keeps_visited (d : Draft) (e : Event) (outcome : PlayResult)
    (st : Home) (i : nat) (p : LocationState) :
  nth_error (locations st) i = Some p ->
  played p = true ->
  exists p', nth_error (locations (step d e outcome st)) i = Some p' /\
             point_of p' = point_of p /\ played p' = true.
Proof.
  intros Hi Hp.
  assert (Hl : locations (step d e outcome st) = locations (handle d e st)).
  { unfold step, commit. destruct (same_audio _ _); [reflexivity |].
    apply effect_keeps_locations. }
  rewrite Hl.
  assert (Hupd : forall position st0,
             locations st0 = locations st ->
             exists p',
               nth_error (locations (processLocationUpdate position st0)) i
                 = Some p' /\
               point_of p' = point_of p /\ played p' = true).
  { intros position st0 H0. exists (refreshed position p). split.
    - apply nth_error_refreshed. now rewrite H0.
    - split; [reflexivity |]. rewrite refreshed_played, Hp. reflexivity. }
  destruct e; simpl; try (exists p; auto; fail).
  - exists p. unfold handleStartTour.
    destruct geolocation; simpl; [| auto].
    destruct (audioRef st); auto.
  - unfold onInitialPosition. simpl. now apply Hupd.
  - now apply Hupd.
Qed.

Section Apart.

Local Open Scope R_scope.

(** A fix within the radius of a POI is beyond the radius of any POI
    whose parallel is more than 60 m of meridian arc away. *)
Lemma near_one_far_other (x lx a la b lb : R) :
  Rabs x <= 90 -> Rabs a <= 90 -> Rabs b <= 90 ->
  60 < 6371000 * (Rabs (a - b) * 3 / 180) ->
  (getDistance (Fin x) (Fin lx) (Fin a) (Fin la) <=? TRIGGER_RADIUS)%js = true ->
  (getDistance (Fin x) (Fin lx) (Fin b) (Fin lb) <=? TRIGGER_RADIUS)%js = false.
Proof.
  intros Hx Ha Hb Hab Hnear.
  destruct (getDistance_lower x lx a la Hx Ha) as (da & Hda & Hla).
  destruct (getDistance_lower x lx b lb Hx Hb) as (db & Hdb & Hlb).
  rewrite Hda in Hnear. rewrite Hdb.
  apply leb_Fin in Hnear. apply leb_Fin_false.
  pose proof PI_gt_3 as Hpi.
  assert (Htri : Rabs (a - b) <= Rabs (a - x) + Rabs (b - x)).
  { replace (a - b) with ((a - x) + - (b - x)) by ring.
    eapply Rle_trans; [apply Rabs_triang |]. rewrite Rabs_Ropp. lra. }
  pose proof (Rabs_pos (a - b)) as H0.
  assert (H3 : Rabs (a - b) * 3 <= Rabs (a - b) * PI)
    by (apply Rmult_le_compat_l; lra).
  assert (Hm : Rabs (a - b) * PI <= (Rabs (a - x) + Rabs (b - x)) * PI)
    by (apply Rmult_le_compat_r; lra).
  lra.
Qed.

End Apart.

(** In the shipped catalogs no fix at a valid latitude is within the
    radius of two POIs at once: there the updates trigger one POI at a
    time. *)
Lemma shipped_catalog_single_trigger (d : Draft) (lat0 lon0 : R)
    (p q : LocationState) :
  (Rabs lat0 <= 90)%R ->
  In (point_of p) (pointsOfInterest d) ->
  In (point_of q) (pointsOfInterest d) ->
  point_of p <> point_of q ->
  qualifies (fixAt (Fin lat0) (Fin lon0)) p = true ->
  qualifies (fixAt (Fin lat0) (Fin lon0)) q = false.
Proof.
  intros H0 Hp Hq Hne Hnear.
  assert (Hp3 : In (point_of p) [poi1; poi2; poi3])
    by (destruct d; simpl in *; tauto).
  assert (Hq3 : In (point_of q) [poi1; poi2; poi3])
    by (destruct d; simpl in *; tauto).
  clear Hp Hq.
  unfold qualifies in *. apply andb_prop in Hnear. destruct Hnear as [Hnear _].
  apply andb_false_intro1.
  unfold distanceTo in *. cbn [fixAt coords latitude longitude] in *.
  simpl in Hp3, Hq3.
  destruct Hp3 as [Hp | [Hp | [Hp | []]]];
    destruct Hq3 as [Hq | [Hq | [Hq | []]]];
    rewrite <- Hp, <- Hq in Hne; try (exfalso; apply Hne; reflexivity);
    rewrite <- Hp in Hnear; rewrite <- Hq; simpl lat in *; simpl lon in *;
    (eapply near_one_far_other; [exact H0 | | | | exact Hnear]; latitudes).
Qed.

(* ================================================================= *)
(** * Further properties of the distance helper *)

Lemma sub_nonfinite_l (x y : number) :
  isFinite x = false -> isFinite (x - y) = false.
Proof. destruct x, y; simpl; intros H; try reflexivity; discriminate. Qed.

Lemma getDistance_nonfinite_target (lat1 lon1 lat2 lon2 : number) :
  isFinite lat2 = false \/ isFinite lon2 = false ->
  getDistance lat1 lon1 lat2 lon2 = NaN.
Proof.
  intros H. unfold getDistance.
  assert (Ha : Math_sin ((lat2 - lat1) * Math_PI / Fin 180 / Fin 2) *
               Math_sin ((lat2 - lat1) * Math_PI / Fin 180 / Fin 2) +
               Math_cos (lat1 * Math_PI / Fin 180) *
               Math_cos (lat2 * Math_PI / Fin 180) *
               Math_sin ((lon2 - lon1) * Math_PI / Fin 180 / Fin 2) *
               Math_sin ((lon2 - lon1) * Math_PI / Fin 180 / Fin 2) = NaN).
  { destruct H as [H | H].
    - rewrite (sin_nonfinite ((lat2 - lat1) * Math_PI / Fin 180 / Fin 2)).
      + reflexivity.
      + apply div_nonfinite; [lra |]. apply div_nonfinite; [lra |].
        apply mul_PI_nonfinite. now apply sub_nonfinite_l.
    - rewrite (sin_nonfinite ((lon2 - lon1) * Math_PI / Fin 180 / Fin 2)).
      + now rewrite !mul_NaN_r, add_NaN_r.
      + apply div_nonfinite; [lra |]. apply div_nonfinite; [lra |].
        apply mul_PI_nonfinite. now apply sub_nonfinite_l. }
  cbv zeta. rewrite Ha. reflexivity.
Qed.

Lemma getDistance_Fin_range (lat1 lon1 lat2 lon2 : R) :
  exists d : R,
    getDistance (Fin lat1) (Fin lon1) (Fin lat2) (Fin lon2) = Fin d /\
    (0 <= d <= PI * 6371000)%R.
Proof.
  rewrite getDistance_haversine.
  eexists. split; [reflexivity |]. unfold haversine.
  set (a := ((sin ((lat2 - lat1) * PI / 180 / 2))² +
             cos (lat1 * PI / 180) * cos (lat2 * PI / 180) *
             (sin ((lon2 - lon1) * PI / 180 / 2))²)%R).
  assert (Hrange : (0 <= a <= 1)%R).
  { pose proof (hav_a_range lat1 lon1 lat2 lon2) as Hr.
    unfold hav_a in Hr. unfold a, Rsqr. lra. }
  assert (Hsq : (-1 <= sqrt a <= 1)%R).
  { pose proof (sqrt_pos a). split; [lra |].
    rewrite <- sqrt_1. apply sqrt_le_1; lra. }
  pose proof (asin_bound (sqrt a)) as Hb.
  pose proof (sin_asin (sqrt a) Hsq) as Hs.
  pose proof (sqrt_pos a) as Hpos.
  pose proof PI_RGT_0 as Hpi.
  assert (H0 : (0 <= asin (sqrt a))%R).
  { destruct (Rle_dec 0 (asin (sqrt a))) as [H | H]; [exact H |].
    assert (sin (asin (sqrt a)) < 0)%R by (apply sin_lt_0_var; lra).
    lra. }
  lra.
Qed.

(** Either all four coordinates are finite and the distance is a
    finite number in range, or the distance is [NaN]. *)
Lemma getDistance_cases (lat1 lon1 lat2 lon2 : number) :
  (isFinite lat1 && isFinite lon1 && isFinite lat2 && isFinite lon2 = true /\
   exists r, getDistance lat1 lon1 lat2 lon2 = Fin r /\
             (0 <= r <= PI * 6371000)%R) \/
  (isFinite lat1 && isFinite lon1 && isFinite lat2 && isFinite lon2 = false /\
   getDistance lat1 lon1 lat2 lon2 = NaN).
Proof.
  destruct (isFinite lat1) eqn:H1.
  2:{ right. split; [reflexivity |]. apply getDistance_nonfinite. now left. }
  destruct (isFinite lon1) eqn:H2.
  2:{ right. split; [reflexivity |]. apply getDistance_nonfinite. now right. }
  destruct (isFinite lat2) eqn:H3.
  2:{ right. split; [reflexivity |].
      apply getDistance_nonfinite_target. now left. }
  destruct (isFinite lon2) eqn:H4.
  2:{ right. split; [reflexivity |].
      apply getDistance_nonfinite_target. now right. }
  left. split; [reflexivity |].
  destruct lat1, lon1, lat2, lon2; try discriminate.
  apply getDistance_Fin_range.
Qed.




(* ================================================================= *)
(** * Further properties of the engine *)

Lemma distanceTo_refreshed (position other : GeolocationPosition)
    (p : LocationState) :
  distanceTo other (refreshed position p) = distanceTo other p.
Proof. reflexivity. Qed.

Lemma refreshed_idempotent (position : GeolocationPosition) (p : LocationState) :
  refreshed position (refreshed position p) = refreshed position p.
Proof.
  unfold refreshed. cbn [point_of played distance].
  change (distanceTo position
            {| point_of := point_of p;
               played := played p || (distanceTo position p <=? TRIGGER_RADIUS);
               distance := distanceTo position p |})
    with (distanceTo position p).
  destruct (played p), (distanceTo position p <=? TRIGGER_RADIUS); reflexivity.
Qed.

Lemma refreshed_quiet (position : GeolocationPosition) (p : LocationState) :
  qualifies position (refreshed position p) = false.
Proof.
  unfold qualifies. rewrite distanceTo_refreshed. unfold refreshed.
  cbn [played].
  destruct (played p), (distanceTo position p <=? TRIGGER_RADIUS); reflexivity.
Qed.

(** X5.  Delivering the same fix twice in a row: the second update
    triggers nothing and leaves the registry, the active narration,
    the error cell and the current position as the first left them. *)
Theorem repeated_fix_changes_nothing_more :
  forall (position : GeolocationPosition) (st : Home),
    let st1 := processLocationUpdate position st in
    let st2 := processLocationUpdate position st1 in
    locations st2 = locations st1 /\
    activeAudio st2 = activeAudio st1 /\
    error st2 = error st1 /\
    currentPosition st2 = currentPosition st1.
Proof.
  intros position st st1 st2.
  assert (Hl1 : locations st1 = map (refreshed position) (locations st))
    by apply locations_processLocationUpdate.
  assert (Hq : forall q, In q (locations st1) -> qualifies position q = false).
  { intros q Hin. rewrite Hl1 in Hin. apply in_map_iff in Hin.
    destruct Hin as (p & <- & _). apply refreshed_quiet. }
  destruct (processLocationUpdate_frame position st) as (Hc1 & _).
  fold st1 in Hc1.
  unfold st2. rewrite (processLocationUpdate_quiet position st1 Hq). cbv zeta.
  cbn [locations activeAudio error currentPosition setLocations
       setStatusMessage setCurrentPosition].
  split; [| split; [reflexivity | split; [reflexivity | now rewrite Hc1]]].
  rewrite Hl1, map_map. apply map_ext. intros p. apply refreshed_idempotent.
Qed.

(** X6.  An update keeps the registry's catalog entries, in number and
    order, stores for each the distance it computed, records the fix
    as the current position, and does not touch the watching flag, the
    AR flag, the audio element or the watch handle. *)
Theorem update_keeps_catalog_and_unrelated_cells :
  forall (position : GeolocationPosition) (st : Home),
    let st' := processLocationUpdate position st in
    map point_of (locations st') = map point_of (locations st) /\
    map distance (locations st') = map (distanceTo position) (locations st) /\
    currentPosition st' = Some (coords position) /\
    isWatching st' = isWatching st /\
    showAR st' = showAR st /\
    audioRef st' = audioRef st /\
    watchIdRef st' = watchIdRef st.
Proof.
  intros position st st'. subst st'.
  rewrite locations_processLocationUpdate, !map_map.
  split; [reflexivity |]. split; [reflexivity |].
  apply processLocationUpdate_frame.
Qed.

Lemma existsb_qualifies_false (position : GeolocationPosition)
    (l : list LocationState) :
  existsb (qualifies position) l = false ->
  forall q, In q l -> qualifies position q = false.
Proof.
  intros He q Hin. destruct (qualifies position q) eqn:Hq; [| reflexivity].
  assert (existsb (qualifies position) l = true)
    by (apply existsb_exists; eauto).
  congruence.
Qed.

(** X7.  An update clears the error cell exactly when some POI
    triggers; an update in which nothing triggers leaves the error
    cell and the active narration as they were. *)
Theorem error_cleared_exactly_by_a_trigger :
  forall (position : GeolocationPosition) (st : Home),
    let st' := processLocationUpdate position st in
    error st' =
      (if existsb (qualifies position) (locations st) then None else error st) /\
    (existsb (qualifies position) (locations st) = false ->
     activeAudio st' = activeAudio st).
Proof.
  intros position st st'. subst st'.
  destruct (existsb (qualifies position) (locations st)) eqn:He.
  - apply existsb_exists in He. destruct He as (p & Hin & Hp).
    destruct (trigger_activates_registry_audio position st p Hin Hp)
      as (_ & _ & _ & Herr).
    split; [exact Herr | discriminate].
  - pose proof (existsb_qualifies_false position _ He) as Hq.
    rewrite (processLocationUpdate_quiet position st Hq).
    split; [reflexivity | reflexivity].
Qed.

Lemma visitedCount_refreshed (position : GeolocationPosition)
    (l : list LocationState) :
  visitedCount (map (refreshed position) l) =
  (visitedCount l + List.length (filter (qualifies position) l))%nat.
Proof.
  unfold visitedCount. induction l as [| p l IH]; [reflexivity |].
  cbn [map filter]. rewrite refreshed_played.
  unfold qualifies at 1 2.
  destruct (played p), (distanceTo position p <=? TRIGGER_RADIUS);
    cbn [orb andb negb List.length]; rewrite IH; lia.
Qed.

(** X8.  The number of visited POIs after an update is the number
    before plus the number of POIs that were unvisited and within the
    trigger radius of the fix. *)
Theorem visited_count_grows_by_qualifying :
  forall (position : GeolocationPosition) (st : Home),
    visitedCount (locations (processLocationUpdate position st)) =
    (visitedCount (locations st) +
     List.length (filter (qualifies position) (locations st)))%nat.
Proof.
  intros position st. rewrite locations_processLocationUpdate.
  apply visitedCount_refreshed.
Qed.

Lemma poi_distinct : poi1 <> poi2 /\ poi1 <> poi3 /\ poi2 <> poi3.
Proof. repeat split; intros H; apply (f_equal id) in H; discriminate. Qed.

Lemma shipped_pair_exclusive (d : Draft) (lat0 lon0 : R) (p q : LocationState) :
  (Rabs lat0 <= 90)%R ->
  In (point_of p) (pointsOfInterest d) ->
  In (point_of q) (pointsOfInterest d) ->
  point_of p <> point_of q ->
  qualifies (fixAt (Fin lat0) (Fin lon0)) p &&
  qualifies (fixAt (Fin lat0) (Fin lon0)) q = false.
Proof.
  intros H0 Hp Hq Hne.
  destruct (qualifies (fixAt (Fin lat0) (Fin lon0)) p) eqn:Hqp; [| reflexivity].
  now rewrite (shipped_catalog_single_trigger d lat0 lon0 p q H0 Hp Hq Hne Hqp).
Qed.

(** X9.  On a registry built from a shipped catalog, an update whose
    fix has finite coordinates and a latitude within [-90, 90] marks
    at most one POI visited: the shipped POIs are too far apart for
    two of them to be within the radius of one fix. *)
Theorem shipped_catalog_at_most_one_visit_per_update :
  forall (d : Draft) (st : Home) (lat0 lon0 : R),
    (Rabs lat0 <= 90)%R ->
    map point_of (locations st) = pointsOfInterest d ->
    visitedCount (locations (processLocationUpdate
                               (fixAt (Fin lat0) (Fin lon0)) st)) <=
    S (visitedCount (locations st)).
Proof.
  intros d st lat0 lon0 H0 Hcat.
  rewrite locations_processLocationUpdate, visitedCount_refreshed.
  destruct poi_distinct as (H12 & H13 & H23).
  assert (Hex : forall p q,
             In (point_of p) (pointsOfInterest d) ->
             In (point_of q) (pointsOfInterest d) ->
             point_of p <> point_of q ->
             qualifies (fixAt (Fin lat0) (Fin lon0)) p &&
             qualifies (fixAt (Fin lat0) (Fin lon0)) q = false)
    by (intros; now apply shipped_pair_exclusive with (d := d)).
  destruct d; cbn [pointsOfInterest] in *;
    destruct (locations st) as [| a [| b [| c [| ? ?]]]];
    cbn [map] in Hcat; try discriminate;
    first [ injection Hcat as Ha Hb Hc | injection Hcat as Ha Hb ].
  - assert (Eab := Hex a b). assert (Eac := Hex a c). assert (Ebc := Hex b c).
    rewrite Ha, Hb, Hc in *. cbn [In] in *.
    specialize (Eab (or_introl eq_refl) (or_intror (or_introl eq_refl)) H12).
    specialize (Eac (or_introl eq_refl)
                  (or_intror (or_intror (or_introl eq_refl))) H13).
    specialize (Ebc (or_intror (or_introl eq_refl))
                  (or_intror (or_intror (or_introl eq_refl))) H23).
    cbn [filter].
    destruct (qualifies _ a), (qualifies _ b), (qualifies _ c);
      try discriminate; cbn [List.length]; lia.
  - assert (Eab := Hex a b). rewrite Ha, Hb in *. cbn [In] in *.
    specialize (Eab (or_introl eq_refl) (or_intror (or_introl eq_refl)) H12).
    cbn [filter].
    destruct (qualifies _ a), (qualifies _ b);
      try discriminate; cbn [List.length]; lia.
  - assert (Eab := Hex a b). rewrite Ha, Hb in *. cbn [In] in *.
    specialize (Eab (or_introl eq_refl) (or_intror (or_introl eq_refl)) H12).
    cbn [filter].
    destruct (qualifies _ a), (qualifies _ b);
      try discriminate; cbn [List.length]; lia.
Qed.

Lemma shipped_catalog_at_most_one_visit_per_update_witness :
  visitedCount (locations (processLocationUpdate
                             (fixAt (Fin (46106953 / 1000000))
                                    (Fin (- (77489467 / 1000000))))
                             (initialState PageA None))) <=
  S (visitedCount (locations (initialState PageA None))).
Proof.
  apply (shipped_catalog_at_most_one_visit_per_update PageA
           (initialState PageA None)
           (46106953 / 1000000) (- (77489467 / 1000000))).
  - rewrite Rabs_pos_eq by lra. lra.
  - reflexivity.
Defined.

Lemma activeAudio_after_update (position : GeolocationPosition) (st : Home) :
  activeAudio (processLocationUpdate position st) = activeAudio st \/
  exists q, In q (locations st) /\
            activeAudio (processLocationUpdate position st) =
              Some (audioSrc (point_of q)).
Proof.
  destruct (existsb (qualifies position) (locations st)) eqn:He.
  - apply existsb_exists in He. destruct He as (p & Hin & Hp).
    destruct (trigger_activates_registry_audio position st p Hin Hp)
      as (q & Hq & Ha & _).
    right. eauto.
  - left. pose proof (existsb_qualifies_false position _ He) as Hq.
    rewrite (processLocationUpdate_quiet position st Hq). reflexivity.
Qed.

(** X10.  When every POI of the registry has the narration source
    that is already active (as in the shipped catalogs, where all POIs
    share one file), a later update starts no playback, whether it
    triggers or not: the effect does not run, so the audio element is
    not touched and a refusal by the platform sets no notice. *)
Theorem shared_source_update_starts_no_playback :
  forall (d : Draft) (position : GeolocationPosition) (outcome : PlayResult)
         (st : Home) (active : string),
    activeAudio st = Some active ->
    (forall q, In q (locations st) -> audioSrc (point_of q) = active) ->
    step d (WatchPosition position) outcome st =
      processLocationUpdate position st /\
    audioRef (step d (WatchPosition position) outcome st) = audioRef st.
Proof.
  intros d position outcome st active Ha Hsrc.
  assert (Hsame : activeAudio (processLocationUpdate position st) = Some active).
  { destruct (activeAudio_after_update position st) as [H | (q & Hin & H)].
    - now rewrite H.
    - rewrite H, (Hsrc q Hin). reflexivity. }
  assert (Hstep : step d (WatchPosition position) outcome st =
                  processLocationUpdate position st).
  { unfold step, commit. cbn [handle]. rewrite Ha, Hsame.
    cbn [same_audio]. now rewrite String.eqb_refl. }
  split; [exact Hstep |]. rewrite Hstep.
  now destruct (processLocationUpdate_frame position st) as (_ & _ & _ & H & _).
Qed.

Lemma shared_source_update_starts_no_playback_witness :
  let st := processLocationUpdate (fixOn poi1)
              (initialState PageA (Some speaker)) in
  step PageA (WatchPosition (fixOn poi2)) Rejected st =
    processLocationUpdate (fixOn poi2) st /\
  audioRef (step PageA (WatchPosition (fixOn poi2)) Rejected st) = audioRef st.
Proof.
  apply (shared_source_update_starts_no_playback PageA (fixOn poi2) Rejected
           (processLocationUpdate (fixOn poi1)
              (initialState PageA (Some speaker)))
           "/oldcabin.m4a").
  - destruct (processLocationUpdate_trigger (fixOn poi1)
                (initialState PageA (Some speaker)) []
                [ {| point_of := poi2; played := false; distance := Infinity |};
                  {| point_of := poi3; played := false; distance := Infinity |} ]
                {| point_of := poi1; played := false; distance := Infinity |})
      as (Ha & _).
    + reflexivity.
    + apply (at_poi_qualifies poi1 _ _ eq_refl eq_refl).
    + intros q [<- | [<- | []]]; [apply poi1_poi2_far | apply poi1_poi3_far].
    + exact Ha.
  - rewrite locations_processLocationUpdate. intros q Hin.
    apply in_map_iff in Hin. destruct Hin as (p & <- & Hp).
    simpl in Hp. destruct Hp as [<- | [<- | [<- | []]]]; reflexivity.
Defined.

(* ================================================================= *)
(** * Whole sessions *)

Lemma effect_frame (d : Draft) (outcome : PlayResult) (st : Home) :
  let st' := audioPlaybackEffect d outcome st in
  locations st' = locations st /\
  currentPosition st' = currentPosition st /\
  activeAudio st' = activeAudio st /\
  isWatching st' = isWatching st /\
  showAR st' = showAR st /\
  watchIdRef st' = watchIdRef st.
Proof.
  cbv zeta. unfold audioPlaybackEffect.
  destruct (activeAudio st) as [active |] eqn:Ha;
    [| rewrite ?Ha; repeat split; reflexivity].
  destruct (audioRef st) as [audio |];
    [| rewrite ?Ha; repeat split; reflexivity].
  destruct (active =? "")%string; [rewrite ?Ha; repeat split; reflexivity |].
  destruct outcome; cbn; rewrite ?Ha; try (repeat split; reflexivity).
  unfold playRejected.
  destruct d; try destruct (find _ _); cbn; rewrite ?Ha;
    repeat split; reflexivity.
Qed.

Lemma step_lifecycle (d : Draft) (e : Event) (outcome : PlayResult) (st : Home) :
  isWatching (step d e outcome st) =
    isWatching st || isInitialPosition (e, outcome) /\
  watchIdRef (step d e outcome st) = lastWatch [(e, outcome)] (watchIdRef st).
Proof.
  assert (Hh : isWatching (handle d e st) =
               isWatching st || isInitialPosition (e, outcome) /\
               watchIdRef (handle d e st) =
               lastWatch [(e, outcome)] (watchIdRef st)).
  { destruct e; cbn; rewrite ?orb_false_r; try (split; reflexivity).
    - unfold handleStartTour. destruct geolocation; cbn;
        [destruct (audioRef st) |]; split; reflexivity.
    - unfold onInitialPosition. cbn.
      destruct (processLocationUpdate_frame position
                  (setStatusMessage "Location activated. Walking tour started."
                     (setError None (setIsWatching true st))))
        as (_ & Hw & _). rewrite Hw. cbn. rewrite orb_true_r.
      split; reflexivity.
    - destruct (processLocationUpdate_frame position st)
        as (_ & Hw & _ & _ & Hid). rewrite Hw, Hid. split; reflexivity. }
  unfold step, commit. destruct (same_audio _ _); [exact Hh |].
  destruct (effect_frame d outcome (handle d e st))
    as (_ & _ & _ & Hw & _ & Hid).
  rewrite Hw, Hid. exact Hh.
Qed.

Lemma lastWatch_cons (eo : Event * PlayResult) (es : list (Event * PlayResult))
    (w : option nat) :
  lastWatch (eo :: es) w = lastWatch es (lastWatch [eo] w).
Proof. destruct eo as [[] o]; reflexivity. Qed.

(** X11.  Over a whole session: the tour is watching afterwards
    exactly if it was watching before or an initial fix was delivered
    (no other event sets or resets the flag, so the Start button never
    comes back), and the unmount cleanup clears the watch registered by
    the last initial fix only; the handle of an earlier initial fix is
    overwritten and never cleared. *)
Theorem watching_flag_and_watch_handle_over_a_session :
  forall (d : Draft) (es : list (Event * PlayResult)) (st : Home),
    isWatching (run d es st) =
      isWatching st || existsb isInitialPosition es /\
    startButtonShown (run d es st) =
      startButtonShown st && negb (existsb isInitialPosition es) /\
    unmountCleanup (run d es st) = lastWatch es (watchIdRef st).
Proof.
  intros d es.
  assert (H : forall st,
             isWatching (run d es st) =
               isWatching st || existsb isInitialPosition es /\
             watchIdRef (run d es st) = lastWatch es (watchIdRef st)).
  { induction es as [| [e o] es IH]; intros st.
    - cbn. rewrite orb_false_r. split; reflexivity.
    - cbn [run fold_left fst snd existsb].
      change (fold_left (fun s eo => step d (fst eo) (snd eo) s) es
                (step d e o st)) with (run d es (step d e o st)).
      destruct (IH (step d e o st)) as [Hw Hid].
      destruct (step_lifecycle d e o st) as [Hw1 Hid1].
      split.
      + rewrite Hw, Hw1. symmetry. apply orb_assoc.
      + rewrite Hid, Hid1. symmetry. apply lastWatch_cons. }
  intros st. destruct (H st) as [Hw Hid].
  split; [exact Hw |]. split; [| exact Hid].
  unfold startButtonShown. rewrite Hw. apply negb_orb.
Qed.

Lemma step_entry (d : Draft) (e : Event) (outcome : PlayResult) (st : Home)
    (i : nat) (p : LocationState) :
  nth_error (locations st) i = Some p ->
  exists p', nth_error (locations (step d e outcome st)) i = Some p' /\
             point_of p' = point_of p /\
             (played p = true -> played p' = true).
Proof.
  intros Hi.
  assert (Hl : locations (step d e outcome st) = locations (handle d e st)).
  { unfold step, commit. destruct (same_audio _ _); [reflexivity |].
    apply effect_keeps_locations. }
  rewrite Hl.
  assert (Hupd : forall position st0,
             locations st0 = locations st ->
             exists p',
               nth_error (locations (processLocationUpdate position st0)) i
                 = Some p' /\
               point_of p' = point_of p /\
               (played p = true -> played p' = true)).
  { intros position st0 H0. exists (refreshed position p). split.
    - apply nth_error_refreshed. now rewrite H0.
    - split; [reflexivity |]. intros Hp. rewrite refreshed_played, Hp.
      reflexivity. }
  destruct e; simpl; try (exists p; auto; fail).
  - exists p. unfold handleStartTour.
    destruct geolocation; simpl; [| auto].
    destruct (audioRef st); auto.
  - unfold onInitialPosition. simpl. now apply Hupd.
  - now apply Hupd.
Qed.

Lemma step_length (d : Draft) (e : Event) (outcome : PlayResult) (st : Home) :
  List.length (locations (step d e outcome st)) = List.length (locations st).
Proof.
  assert (Hl : locations (step d e outcome st) = locations (handle d e st)).
  { unfold step, commit. destruct (same_audio _ _); [reflexivity |].
    apply effect_keeps_locations. }
  rewrite Hl. destruct e; simpl; try reflexivity.
  - unfold handleStartTour. destruct geolocation; simpl; [| reflexivity].
    now destruct (audioRef st).
  - unfold onInitialPosition. simpl.
    rewrite locations_processLocationUpdate. apply length_map.
  - rewrite locations_processLocationUpdate. apply length_map.
Qed.

Lemma run_length (d : Draft) (es : list (Event * PlayResult)) :
  forall st : Home,
    List.length (locations (run d es st)) = List.length (locations st).
Proof.
  induction es as [| [e o] es IH]; intros st; [reflexivity |].
  cbn [run fold_left fst snd].
  change (fold_left (fun s eo => step d (fst eo) (snd eo) s) es
            (step d e o st)) with (run d es (step d e o st)).
  rewrite IH. apply step_length.
Qed.

(** X12.  Over a whole session, whatever is delivered (fixes, source
    errors, start requests, AR launches and closes, playback refusals),
    every registry position keeps its catalog entry, the registry keeps
    its length, and a POI that is visited stays visited. *)
Theorem session_keeps_registry_and_visits :
  forall (d : Draft) (es : list (Event * PlayResult)) (st : Home)
         (i : nat) (p : LocationState),
    nth_error (locations st) i = Some p ->
    List.length (locations (run d es st)) = List.length (locations st) /\
    exists p', nth_error (locations (run d es st)) i = Some p' /\
               point_of p' = point_of p /\
               (played p = true -> played p' = true).
Proof.
  intros d es st i p Hi. split; [apply run_length |].
  revert st i p Hi.
  induction es as [| [e o] es IH]; intros st i p Hi.
  - exists p. auto.
  - cbn [run fold_left fst snd].
    change (fold_left (fun s eo => step d (fst eo) (snd eo) s) es
              (step d e o st)) with (run d es (step d e o st)).
    destruct (step_entry d e o st i p Hi) as (p1 & H1 & Hpt1 & Hpl1).
    destruct (IH (step d e o st) i p1 H1) as (p2 & H2 & Hpt2 & Hpl2).
    exists p2. split; [exact H2 |]. split; [congruence | auto].
Qed.

Lemma session_keeps_registry_and_visits_witness :
  List.length
    (locations
       (run PageA
          [ (StartTour true, Fulfilled);
            (InitialPosition (fixOn poi1) 7, Rejected);
            (WatchError denied, Fulfilled);
            (LaunchAR, Fulfilled);
            (WatchPosition (fixOn poi2), Rejected) ]
          (initialState PageA (Some speaker)))) =
  List.length (locations (initialState PageA (Some speaker))) /\
  exists p',
    nth_error
      (locations
         (run PageA
            [ (StartTour true, Fulfilled);
              (InitialPosition (fixOn poi1) 7, Rejected);
              (WatchError denied, Fulfilled);
              (LaunchAR, Fulfilled);
              (WatchPosition (fixOn poi2), Rejected) ]
            (initialState PageA (Some speaker)))) 0 = Some p' /\
    point_of p' = poi1 /\
    (false = true -> played p' = true).
Proof.
  apply (session_keeps_registry_and_visits PageA
           [ (StartTour true, Fulfilled);
             (InitialPosition (fixOn poi1) 7, Rejected);
             (WatchError denied, Fulfilled);
             (LaunchAR, Fulfilled);
             (WatchPosition (fixOn poi2), Rejected) ]
           (initialState PageA (Some speaker)) 0
           {| point_of := poi1; played := false; distance := Infinity |}).
  reflexivity.
Defined.

(** *** The audio element through a session *)






(* ================================================================= *)
(** * What the page shows after a fix *)

Lemma round_nonneg (a : R) : (0 <= a)%R -> (0 <= Int_part (a + / 2))%Z.
Proof.
  intros Ha. destruct (base_Int_part (a + / 2)) as [_ H].
  assert (Hlt : (IZR (-1) < IZR (Int_part (a + / 2)))%R) by (simpl; lra).
  apply lt_IZR in Hlt. lia.
Qed.

Lemma distanceTo_cases (position : GeolocationPosition) (p : LocationState) :
  (exists r, distanceTo position p = Fin r /\ (0 <= r <= PI * 6371000)%R) \/
  distanceTo position p = NaN.
Proof.
  unfold distanceTo.
  destruct (getDistance_cases (latitude (coords position))
              (longitude (coords position))
              (lat (point_of p)) (lon (point_of p)))
    as [[_ H] | [_ H]]; [left | right]; exact H.
Qed.

(** X14.  After an update no card shows the not-available text any
    more: a card shows "Distance: <z>m" with [z] a non-negative
    integer within half a metre of the computed distance, or
    "Distance: NaNm" when the distance could not be computed. *)
Theorem cards_show_rounded_distance_after_update :
  forall (d : Draft) (position : GeolocationPosition) (st : Home)
         (p' : LocationState),
    In p' (locations (processLocationUpdate position st)) ->
    (exists a z,
        distance p' = Fin a /\
        (0 <= z)%Z /\ (a - / 2 < IZR z <= a + / 2)%R /\
        distanceLabel d p' =
          "Distance: " ++ NilZero.string_of_int (Z.to_int z) ++ "m") \/
    (distance p' = NaN /\ distanceLabel d p' = "Distance: NaNm").
Proof.
  intros d position st p' Hin.
  rewrite locations_processLocationUpdate in Hin.
  apply in_map_iff in Hin. destruct Hin as (p & <- & _).
  unfold distanceLabel, refreshed. cbn [distance].
  destruct (distanceTo_cases position p) as [(r & Hr & H0 & _) | HN].
  - left. exists r, (Int_part (r + / 2)). rewrite Hr.
    split; [reflexivity |]. split; [now apply round_nonneg |].
    split; [apply Math_round_nearest |].
    rewrite toString_round. reflexivity.
  - right. rewrite HN. split; reflexivity.
Qed.

Lemma cards_show_rounded_distance_after_update_witness :
  (exists a z,
      distance {| point_of := northGate; played := true;
                  distance := gateDistance |} = Fin a /\
      (0 <= z)%Z /\ (a - / 2 < IZR z <= a + / 2)%R /\
      distanceLabel PageA {| point_of := northGate; played := true;
                             distance := gateDistance |} =
        "Distance: " ++ NilZero.string_of_int (Z.to_int z) ++ "m") \/
  (distance {| point_of := northGate; played := true;
               distance := gateDistance |} = NaN /\
   distanceLabel PageA {| point_of := northGate; played := true;
                          distance := gateDistance |} = "Distance: NaNm").
Proof.
  apply (cards_show_rounded_distance_after_update PageA onTheLine
           (startWith twoGates None)).
  fold gatesVisited. rewrite gatesVisited_locations. left. reflexivity.
Defined.


(** X16.  With an empty registry an update triggers nothing and
    reports the searching fallback; it records the fix and changes
    nothing else. *)
Theorem empty_registry_update_reports_searching :
  forall (position : GeolocationPosition) (st : Home),
    locations st = [] ->
    processLocationUpdate position st =
    setStatusMessage "Searching for points of interest..."
      (setCurrentPosition (Some (coords position)) st).
Proof.
  intros position st Hl.
  rewrite processLocationUpdate_quiet by (rewrite Hl; intros q []).
  cbv zeta. unfold scanLocations.
  cbn [locations setCurrentPosition]. rewrite Hl.
  cbn. destruct st; cbn in *. now rewrite Hl.
Qed.

Lemma empty_registry_update_reports_searching_witness :
  processLocationUpdate onTheLine (startWith [] None) =
  setStatusMessage "Searching for points of interest..."
    (setCurrentPosition (Some (coords onTheLine)) (startWith [] None)).
Proof.
  apply (empty_registry_update_reports_searching onTheLine (startWith [] None)).
  reflexivity.
Defined.

(* ================================================================= *)
(** * Loading and unloading the AR scripts *)

Lemma filter_all {A : Type} (f : A -> bool) (l : list A) :
  (forall x, In x l -> f x = true) -> filter f l = l.
Proof.
  induction l as [| a l IH]; intros H; [reflexivity |].
  cbn. rewrite (H a (or_introl eq_refl)). f_equal.
  apply IH. intros x Hx. apply H. now right.
Qed.

Lemma removeChild_created (body later : list UseScript.Element)
    (created : UseScript.Element) :
  (forall e, In e (body ++ later)%list ->
             UseScript.node e <> UseScript.node created) ->
  UseScript.removeChild (UseScript.appendChild body created ++ later)%list created
  = Some (body ++ later)%list.
Proof.
  intros Hfresh. unfold UseScript.removeChild, UseScript.appendChild.
  assert (Hex : existsb (fun e => Nat.eqb (UseScript.node e)
                                    (UseScript.node created))
                  ((body ++ [created]) ++ later)%list = true).
  { apply existsb_exists. exists created. split.
    - apply in_or_app. left. apply in_or_app. right. now left.
    - apply Nat.eqb_refl. }
  rewrite Hex. f_equal.
  rewrite !filter_app. cbn [filter]. rewrite Nat.eqb_refl. cbn [negb].
  rewrite app_nil_r.
  rewrite !filter_all; [reflexivity | |];
    intros x Hx; apply negb_true_iff, Nat.eqb_neq, Hfresh, in_or_app; tauto.
Qed.

(** X17.  What a [useScript] effect appends, its cleanup removes: when
    the created node is new to the document, running the effect, then
    (after the script has loaded or not, and after other nodes have
    been appended) its cleanup, leaves [document.body] with exactly the
    other nodes, in order; the loaded flag is kept. *)
Theorem useScript_cleanup_undoes_effect :
  forall (url : string) (fresh : nat) (loaded : bool) (h : UseScript.Hook)
         (body later : list UseScript.Element),
    (forall e, In e (body ++ later)%list -> UseScript.node e <> fresh) ->
    let mounted := UseScript.effect url fresh h body in
    let h1 := if loaded then UseScript.onload (fst mounted) else fst mounted in
    UseScript.cleanup h1 (snd mounted ++ later)%list =
    Some ({| UseScript.isLoaded :=
               if loaded then true else UseScript.isLoaded h;
             UseScript.script := None |},
          (body ++ later)%list).
Proof.
  intros url fresh loaded h body later Hfresh mounted h1.
  unfold UseScript.cleanup. subst h1 mounted.
  destruct loaded; cbn [UseScript.effect UseScript.onload fst snd
                        UseScript.script UseScript.isLoaded];
    rewrite removeChild_created by exact Hfresh; reflexivity.
Qed.

Lemma useScript_cleanup_undoes_effect_witness :
  let other := {| UseScript.node := 0; UseScript.tagName := "div";
                  UseScript.src := ""; UseScript.async := false |} in
  let mounted := UseScript.effect aframeUrl 1 UseScript.initial [other] in
  UseScript.cleanup (UseScript.onload (fst mounted)) (snd mounted ++ [])%list =
  Some ({| UseScript.isLoaded := true; UseScript.script := None |},
        ([other] ++ [])%list).
Proof.
  apply (useScript_cleanup_undoes_effect aframeUrl 1 true UseScript.initial
           [ {| UseScript.node := 0; UseScript.tagName := "div";
                UseScript.src := ""; UseScript.async := false |} ] []).
  intros e [<- | []]. discriminate.
Defined.

(** X18.  Opening and closing the AR view leaves [document.body] as it
    was: both script nodes are appended on mount and removed on
    unmount, whether or not they have loaded; until both have loaded
    the loading overlay is shown, and once both have it is not. *)
Theorem ar_view_open_close_restores_body :
  forall (fa fm : nat) (loadedA loadedM : bool)
         (body : list UseScript.Element),
    fa <> fm ->
    (forall e, In e body -> UseScript.node e <> fa /\ UseScript.node e <> fm) ->
    let mounted := arMount fa fm body in
    let hooks :=
      (if loadedA then UseScript.onload (fst (fst mounted))
       else fst (fst mounted),
       if loadedM then UseScript.onload (snd (fst mounted))
       else snd (fst mounted)) in
    List.length (snd mounted) = S (S (List.length body)) /\
    arLoadingShown hooks = negb (loadedA && loadedM) /\
    arUnmount hooks (snd mounted) = Some body.
Proof.
  intros fa fm loadedA loadedM body Hne Hfresh mounted hooks.
  subst hooks mounted. unfold arMount.
  cbn [UseScript.effect fst snd].
  split; [| split].
  - unfold UseScript.appendChild. rewrite !length_app. cbn. lia.
  - unfold arLoadingShown. destruct loadedA, loadedM; reflexivity.
  - unfold arUnmount, UseScript.cleanup.
    set (sA := {| UseScript.node := fa; UseScript.tagName := "script";
                  UseScript.src := aframeUrl; UseScript.async := true |}).
    set (sM := {| UseScript.node := fm; UseScript.tagName := "script";
                  UseScript.src := mindarUrl; UseScript.async := true |}).
    assert (HA : UseScript.removeChild
                   (UseScript.appendChild (UseScript.appendChild body sA) sM) sA
                 = Some (body ++ [sM])%list).
    { unfold UseScript.appendChild at 1.
      apply (removeChild_created body [sM] sA).
      intros e Hin. apply in_app_or in Hin. destruct Hin as [Hin | [<- | []]].
      - apply (Hfresh e Hin).
      - cbn. congruence. }
    assert (HM : UseScript.removeChild (body ++ [sM])%list sM = Some body).
    { pose proof (removeChild_created body [] sM) as H.
      unfold UseScript.appendChild in H. rewrite !app_nil_r in H.
      apply H. intros e Hin. apply (Hfresh e Hin). }
    destruct loadedA, loadedM;
      cbn [fst snd UseScript.script UseScript.onload UseScript.isLoaded
           UseScript.initial];
      fold sA sM; rewrite HA; cbn [fst snd UseScript.script]; rewrite HM;
      reflexivity.
Qed.

Lemma ar_view_open_close_restores_body_witness :
  let other := {| UseScript.node := 0; UseScript.tagName := "div";
                  UseScript.src := ""; UseScript.async := false |} in
  let mounted := arMount 1 2 [other] in
  let hooks := (UseScript.onload (fst (fst mounted)), snd (fst mounted)) in
  List.length (snd mounted) = S (S (List.length [other])) /\
  arLoadingShown hooks = negb (true && false) /\
  arUnmount hooks (snd mounted) = Some [other].
Proof.
  apply (ar_view_open_close_restores_body 1 2 true false
           [ {| UseScript.node := 0; UseScript.tagName := "div";
                UseScript.src := ""; UseScript.async := false |} ]).
  - discriminate.
  - intros e [<- | []]. split; discriminate.
Defined.

(* ================================================================= *)
(** * The notice after a refused playback *)




(* ================================================================= *)
(** * The distance helper in double precision *)

Lemma eqb_nan_l (x : float) : PrimFloat.eqb PrimFloat.nan x = false.
Proof.
  rewrite FloatAxioms.eqb_spec. unfold SFeqb, SFcompare.
  replace (Prim2SF PrimFloat.nan) with S754_nan by (vm_compute; reflexivity).
  reflexivity.
Qed.

(** C4.  In double precision the haversine term is not kept within
    [0, 1]: for the points 2.5 S 180 W and 2.5 N 0 E, with the sine and
    cosine correctly rounded at the arguments the call evaluates and
    [Math.atan2] returning [NaN] on a [NaN] argument, the term rounds
    to [1.0000000000000002], its complement has no square root, and
    [getDistance] returns [NaN]; the result is then not [==] to the
    distance taken the other way round. *)
Theorem getDistance_near_antipodes_is_NaN :
  forall (Math_sin Math_cos : float -> float)
         (Math_atan2 : float -> float -> float),
    Math_sin 0x1.657184ae74487p-5%float = 0x1.65547c4694e11p-5%float ->
    Math_sin 0x1.921fb54442d18p+0%float = 1%float ->
    Math_cos (-0x1.657184ae74487p-5)%float = 0x1.ff833f9da45f7p-1%float ->
    Math_cos 0x1.657184ae74487p-5%float = 0x1.ff833f9da45f7p-1%float ->
    (forall y, Math_atan2 y PrimFloat.nan = PrimFloat.nan) ->
    Double.getDistance Math_sin Math_cos Math_atan2
      (-2.5)%float (-180)%float 2.5%float 0%float = PrimFloat.nan /\
    PrimFloat.eqb
      (Double.getDistance Math_sin Math_cos Math_atan2
         (-2.5)%float (-180)%float 2.5%float 0%float)
      (Double.getDistance Math_sin Math_cos Math_atan2
         2.5%float 0%float (-2.5)%float (-180)%float) = false.
Proof.
  intros Math_sin Math_cos Math_atan2 Hs1 Hs2 Hc1 Hc2 Hnan.
  assert (Hd : Double.getDistance Math_sin Math_cos Math_atan2
                 (-2.5)%float (-180)%float 2.5%float 0%float = PrimFloat.nan).
  { unfold Double.getDistance. cbv zeta.
    replace ((2.5 - -2.5) * Double.Math_PI / 180 / 2)%float
      with 0x1.657184ae74487p-5%float by (vm_compute; reflexivity).
    replace ((0 - -180) * Double.Math_PI / 180 / 2)%float
      with 0x1.921fb54442d18p+0%float by (vm_compute; reflexivity).
    replace (-2.5 * Double.Math_PI / 180)%float
      with (-0x1.657184ae74487p-5)%float by (vm_compute; reflexivity).
    replace (2.5 * Double.Math_PI / 180)%float
      with 0x1.657184ae74487p-5%float by (vm_compute; reflexivity).
    rewrite Hs1, Hs2, Hc1, Hc2.
    replace (PrimFloat.sqrt
               (1 - (0x1.65547c4694e11p-5 * 0x1.65547c4694e11p-5 +
                     0x1.ff833f9da45f7p-1 * 0x1.ff833f9da45f7p-1 * 1 * 1)))%float
      with PrimFloat.nan by (vm_compute; reflexivity).
    rewrite Hnan. vm_compute. reflexivity. }
  split; [exact Hd |]. rewrite Hd. apply eqb_nan_l.
Qed.

Lemma getDistance_near_antipodes_is_NaN_witness :
  Double.getDistance Double.sinTable Double.cosTable Double.atan2Table
    (-2.5)%float (-180)%float 2.5%float 0%float = PrimFloat.nan /\
  PrimFloat.eqb
    (Double.getDistance Double.sinTable Double.cosTable Double.atan2Table
       (-2.5)%float (-180)%float 2.5%float 0%float)
    (Double.getDistance Double.sinTable Double.cosTable Double.atan2Table
       2.5%float 0%float (-2.5)%float (-180)%float) = false.
Proof.
  apply (getDistance_near_antipodes_is_NaN Double.sinTable Double.cosTable
           Double.atan2Table).
  - vm_compute. reflexivity.
  - vm_compute. reflexivity.
  - vm_compute. reflexivity.
  - vm_compute. reflexivity.
  - intros y. reflexivity.
Defined.

(** X2.  If any of the four coordinates is [NaN] or infinite,
    [getDistance] returns [NaN]. *)
Theorem getDistance_NaN_on_nonfinite_coordinate :
  forall lat1 lon1 lat2 lon2 : number,
    isFinite lat1 && isFinite lon1 && isFinite lat2 && isFinite lon2 = false ->
    getDistance lat1 lon1 lat2 lon2 = NaN.
Proof.
  intros lat1 lon1 lat2 lon2 H.
  destruct (getDistance_cases lat1 lon1 lat2 lon2) as [[Hb _] | [_ HN]];
    [congruence | exact HN].
Qed.

Lemma getDistance_NaN_on_nonfinite_coordinate_witness :
  getDistance (Fin 0) (Fin 0) (Fin 0) NegInfinity = NaN.
Proof.
  apply (getDistance_NaN_on_nonfinite_coordinate (Fin 0) (Fin 0) (Fin 0)
           NegInfinity).
  reflexivity.
Defined.

(* ================================================================= *)
(** * A page without an audio element, step by step *)

Lemma step_locations (d : Draft) (e : Event) (outcome : PlayResult) (st : Home) :
  locations (step d e outcome st) = locations (handle d e st).
Proof.
  unfold step, commit. destruct (same_audio _ _); [reflexivity |].
  apply effect_keeps_locations.
Qed.

Lemma effect_unrefused (d : Draft) (outcome : PlayResult) (st : Home) :
  outcome <> Rejected ->
  statusMessage (audioPlaybackEffect d outcome st) = statusMessage st /\
  error (audioPlaybackEffect d outcome st) = error st.
Proof.
  intros Ho. unfold audioPlaybackEffect.
  destruct (activeAudio st) as [active |]; [| split; reflexivity].
  destruct (audioRef st) as [audio |]; [| split; reflexivity].
  destruct (active =? "")%string; [split; reflexivity |].
  destruct outcome; [split; reflexivity | split; reflexivity | contradiction].
Qed.

(** C8, amended.  On a page without an audio element the playback
    effect does nothing and reports nothing: a step leaves exactly the
    state its handler produced, and after a trigger the error cell is
    clear.  The visited flags and distances a step leaves are the same
    with or without an audio element, whatever the playback outcome;
    the guidance and the error cell are the same as with an audio
    element whose playback is not refused, and the same as the handler
    alone produces with an audio element. *)
Theorem missing_sink_is_silent :
  forall (d : Draft) (e : Event) (outcome : PlayResult) (st : Home),
    audioRef st = None ->
    step d e outcome st = handle d e st /\
    (forall position p,
        e = WatchPosition position ->
        In p (locations st) -> qualifies position p = true ->
        error (step d e outcome st) = None) /\
    (forall sink,
        locations (step d e outcome (setAudioRef sink st)) =
          locations (step d e outcome st)) /\
    (forall sink,
        outcome <> Rejected ->
        statusMessage (step d e outcome (setAudioRef sink st)) =
          statusMessage (step d e outcome st) /\
        error (step d e outcome (setAudioRef sink st)) =
          error (step d e outcome st)) /\
    (forall sink,
        locations (handle d e (setAudioRef sink st)) = locations (handle d e st) /\
        statusMessage (handle d e (setAudioRef sink st)) =
          statusMessage (handle d e st) /\
        error (handle d e (setAudioRef sink st)) = error (handle d e st)).
Proof.
  intros d e outcome st H.
  pose proof (step_without_sink d e outcome st H) as Hstep.
  split; [exact Hstep |]. split; [| split; [| split]].
  - intros position p -> Hin Hp. rewrite Hstep. simpl.
    destruct (trigger_activates_registry_audio position st p Hin Hp)
      as (_ & _ & _ & He). exact He.
  - intros sink. rewrite step_locations, Hstep.
    now destruct (handle_sink_indep d e sink st) as (Hl & _).
  - intros sink Ho. rewrite Hstep.
    destruct (handle_sink_indep d e sink st) as (_ & Hm & He).
    unfold step, commit. destruct (same_audio _ _); [split; assumption |].
    destruct (effect_unrefused d outcome (handle d e (setAudioRef sink st)) Ho)
      as [Hm' He'].
    rewrite Hm', He'. split; assumption.
  - intros sink. apply handle_sink_indep.
Qed.

Lemma missing_sink_is_silent_witness :
  let e := WatchPosition (fixOn poi1) in
  let st := initialState PageA None in
  step PageA e Rejected st = handle PageA e st /\
  (forall position p,
      e = WatchPosition position ->
      In p (locations st) -> qualifies position p = true ->
      error (step PageA e Rejected st) = None) /\
  (forall sink,
      locations (step PageA e Rejected (setAudioRef sink st)) =
        locations (step PageA e Rejected st)) /\
  (forall sink,
      Rejected <> Rejected ->
      statusMessage (step PageA e Rejected (setAudioRef sink st)) =
        statusMessage (step PageA e Rejected st) /\
      error (step PageA e Rejected (setAudioRef sink st)) =
        error (step PageA e Rejected st)) /\
  (forall sink,
      locations (handle PageA e (setAudioRef sink st)) =
        locations (handle PageA e st) /\
      statusMessage (handle PageA e (setAudioRef sink st)) =
        statusMessage (handle PageA e st) /\
      error (handle PageA e (setAudioRef sink st)) = error (handle PageA e st)).
Proof.
  apply (missing_sink_is_silent PageA (WatchPosition (fixOn poi1)) Rejected
           (initialState PageA None)).
  reflexivity.
Defined.
